(** * StarGazer serial driver: framing, decoding, resolving, commands

    A shallow embedding of [src/stargazer/stargazer.py] (Python 2).
    Python byte strings ([str]) are lists of 8-bit characters; dictionaries
    are finite maps; the driver's calls into Python builtins, NumPy and
    [tf.transformations] go through the interface [PyNum]. *)

From Stdlib Require Import ZArith List Ascii String Bool Lia Reals Lra.
From stdpp Require Import base option list gmap sets strings pretty.
Import ListNotations.

Local Open Scope list_scope.

(** ** Byte strings *)

Abbreviation bytes := (list ascii).

(** A string literal as a Python [str]. *)
Definition lit (s : string) : bytes := list_ascii_of_string s.

(** The framing constants at the top of the module. *)
Definition STX : ascii := "~"%char.
Definition ETX : ascii := "`"%char.
Definition DELIM : ascii := "|"%char.
Definition CMD : ascii := "#"%char.
Definition RESPONSE : ascii := "!"%char.
Definition RESULT : ascii := "^"%char.

(** The line feed, the one character the regex dot does not match. *)
Definition LF : ascii := "010"%char.

(** ** The frame matcher

    [pattern = '(?<=' + STX + ').+?' + ETX], used through
    [matcher.findall(message_buffer)]. *)
Module Matcher.

(** The lazy tail of [.+?] followed by [ETX]: the shortest run of
    characters other than line feed that is followed by [ETX]; the result
    is that run with the [ETX] that closes it. *)
Fixpoint upto_etx (s : bytes) : option bytes :=
  match s with
  | [] => None
  | c :: s' =>
      if decide (c = ETX) then Some [c]
      else if decide (c = LF) then None
      else cons c <$> upto_etx s'
  end.

(** [.+?] followed by [ETX], anchored at the head of [s]: the dot takes one
    character first, whatever it is apart from a line feed. *)
Definition dot_plus_etx (s : bytes) : option bytes :=
  match s with
  | [] => None
  | c :: s' => if decide (c = LF) then None else cons c <$> upto_etx s'
  end.

(** The whole pattern anchored at the current position; [prev] is the
    character just before it, which the lookbehind wants to be [STX]. *)
Definition match_here (prev : option ascii) (s : bytes) : option bytes :=
  if decide (prev = Some STX) then dot_plus_etx s else None.

(** [findall]: positions are tried from left to right; a match is reported
    and the search resumes right after it ([skip] counts the characters of
    the match still to step over). *)
Fixpoint findall_from (prev : option ascii) (skip : nat) (s : bytes)
  : list bytes :=
  match s with
  | [] => []
  | c :: s' =>
      match skip with
      | S k => findall_from (Some c) k s'
      | O =>
          match match_here prev s with
          | Some cand => cand :: findall_from (Some c) (length cand - 1) s'
          | None => findall_from (Some c) 0 s'
          end
      end
  end.

Definition findall (s : bytes) : list bytes := findall_from None 0 s.

End Matcher.

(** ** [process_buffer], its pure part

    The loop hands [candidate[:-1]] of every match to [process_raw_pose];
    the function returns what follows the last [ETX]. *)

(** [s.rindex(c)], [None] when [c] does not occur. *)
Fixpoint rindex (c : ascii) (s : bytes) : option nat :=
  match s with
  | [] => None
  | x :: s' =>
      match rindex c s' with
      | Some i => Some (S i)
      | None => if decide (x = c) then Some 0 else None
      end
  end.

(** [candidate[:-1]] *)
Definition drop_last (s : bytes) : bytes := removelast s.

(** The payloads passed to the decoder, in order. *)
Definition payloads (message_buffer : bytes) : list bytes :=
  drop_last <$> Matcher.findall message_buffer.

(** The value [process_buffer] returns when no frame raises. *)
Definition remaining (message_buffer : bytes) : bytes :=
  match rindex ETX message_buffer with
  | Some i => drop (S i) message_buffer
  | None => message_buffer
  end.

(** Feeding the extractor chunk by chunk, as the read loop does: every chunk
    is appended to what the previous pass left, and the pass is run on the
    result.  Returns the payloads of all passes, in order, and the buffer
    left at the end. *)
Fixpoint feed (message_buffer : bytes) (chunks : list bytes)
  : list bytes * bytes :=
  match chunks with
  | [] => ([], message_buffer)
  | chunk :: chunks' =>
      let message_buffer := message_buffer ++ chunk in
      let '(out, final) := feed (remaining message_buffer) chunks' in
      (payloads message_buffer ++ out, final)
  end.

(** A [STX] immediately followed by [ETX] somewhere in [s]. *)
Definition has_empty_frame (s : bytes) : Prop :=
  exists u v, s = u ++ STX :: ETX :: v.

(** The same, as a test. *)
Fixpoint empty_frame_in (s : bytes) : bool :=
  match s with
  | c :: s' =>
      match s' with
      | d :: _ =>
          bool_decide (c = STX) && bool_decide (d = ETX) || empty_frame_in s'
      | [] => false
      end
  | [] => false
  end.

(** ** The extractor as the specification words it

    "A complete frame is everything strictly between a START marker and the
    next END marker"; spans are taken left to right without overlap and the
    interior of each is yielded. *)
Module FrameSpec.

(** [open] is [Some acc] inside a span, [acc] being its interior so far. *)
Fixpoint scan (open : option bytes) (s : bytes) : list bytes :=
  match s with
  | [] => []
  | c :: s' =>
      match open with
      | None => if decide (c = STX) then scan (Some []) s' else scan None s'
      | Some acc =>
          if decide (c = ETX) then acc :: scan None s'
          else scan (Some (acc ++ [c])) s'
      end
  end.

Definition frames (s : bytes) : list bytes := scan None s.

End FrameSpec.

(** ** A one-pass view of the matcher

    The search of [Matcher.findall] as an automaton that reads each
    character once.  [Idle]: the previous character is not [STX];
    [Armed]: it is, and no match is open; [Open acc]: a match is open and
    has consumed [acc]. *)
Module Scan.

Inductive state :=
| Idle
| Armed
| Open (acc : bytes).

(** The state in which a search starts after the character [prev]. *)
Definition after (prev : option ascii) : state :=
  if decide (prev = Some STX) then Armed else Idle.

(** One character: the new state and the match completed by it, if any. *)
Definition step (st : state) (c : ascii) : state * option bytes :=
  match st with
  | Idle => (after (Some c), None)
  | Armed => if decide (c = LF) then (Idle, None) else (Open [c], None)
  | Open acc =>
      if decide (c = ETX) then (Idle, Some (acc ++ [c]))
      else if decide (c = LF) then (Idle, None)
      else (Open (acc ++ [c]), None)
  end.

Fixpoint run (st : state) (s : bytes) : list bytes * state :=
  match s with
  | [] => ([], st)
  | c :: s' =>
      let '(st', o) := step st c in
      let '(out, final) := run st' s' in
      (match o with Some m => m :: out | None => out end, final)
  end.

(** The span the specification has open in a state of the automaton. *)
Definition open_span (st : state) : option bytes :=
  match st with
  | Idle => None
  | Armed => Some []
  | Open acc => Some acc
  end.

End Scan.

(** ** Exceptions and results *)

(** The exceptions the driver can meet.  [CommandError] is the plain
    [Exception] of [_send_command], with the three strings its message is
    formatted from. *)
Inductive exn :=
| IndexError
| ValueError
| LinAlgError
| AssertionError
| CommandError (command_str response_actual response_expected : bytes).

Inductive res (A : Type) :=
| Return (a : A)
| Raise (e : exn).
Arguments Return {A} a.
Arguments Raise {A} e.

Global Instance res_ret : MRet res := fun A a => Return a.
Global Instance res_bind : MBind res := fun A B k r =>
  match r with
  | Return a => k a
  | Raise e => Raise e
  end.

(** [v] when the builtin returned one, the exception [e] otherwise. *)
Definition or_raise {A} (e : exn) (o : option A) : res A :=
  match o with
  | Some a => Return a
  | None => Raise e
  end.

Definition raises {A} (r : res A) : Prop := exists e, r = Raise e.

(** ** The numeric builtins

    What the driver calls and this repository does not define: [int] and
    [float] of Python, [np.radians], float multiplication and negation,
    [np.linalg.inv], [np.dot], and [transformations.rotation_matrix] with
    the in-place assignment of a translation column.  A failed conversion
    is [None] ([ValueError]); [linalg_inv] is [None] on a singular matrix
    ([LinAlgError]). *)
Class PyNum := {
  float64 : Type;
  ndarray : Type;
  py_int : bytes -> option Z;
  py_float : bytes -> option float64;
  radians : float64 -> float64;
  fmul : float64 -> float64 -> float64;
  fneg : float64 -> float64;
  (** the literal [.01] *)
  centi : float64;
  (** [transformations.rotation_matrix(yaw, [0,0,1])] *)
  rotation_matrix_z : float64 -> ndarray;
  (** [T[0:3,3] = translation] *)
  set_translation : ndarray -> list float64 -> ndarray;
  linalg_inv : ndarray -> option ndarray;
  dot : ndarray -> ndarray -> ndarray;
}.

(** A key of the [local_poses] dictionary: the decoder stores integers,
    callers may pass strings. *)
Inductive marker_key :=
| IntId (z : Z)
| StrId (s : bytes).

(** [str(marker_id)] *)
Definition py_str (k : marker_key) : bytes :=
  match k with
  | IntId z => lit (pretty z)
  | StrId s => s
  end.

(** ** Strings and arrays in the decoder *)

(** [s.split(sep)] for a separator of one character. *)
Fixpoint split (sep : ascii) (s : bytes) : list bytes :=
  match s with
  | [] => [[]]
  | c :: s' =>
      if decide (c = sep) then [] :: split sep s'
      else match split sep s' with
           | f :: fs => (c :: f) :: fs
           | [] => [[c]]
           end
  end.

(** [sep.join(fields)] *)
Fixpoint join (sep : ascii) (fields : list bytes) : bytes :=
  match fields with
  | [] => []
  | [f] => f
  | f :: fs => f ++ sep :: join sep fs
  end.

(** An item read back from a NumPy array of byte strings: such arrays are
    of fixed width and padded with NUL, so trailing NULs are not part of
    the item. *)
Fixpoint np_item (s : bytes) : bytes :=
  match s with
  | [] => []
  | c :: s' =>
      match np_item s' with
      | [] => if decide (c = zero) then [] else [c]
      | t => c :: t
      end
  end.

(** The rows of [np.reshape(raw_split, (-1, 5))]; [None] when the length is
    no multiple of five, where NumPy raises [ValueError]. *)
Fixpoint reshape5 (raw_split : list bytes) : option (list (list bytes)) :=
  match raw_split with
  | [] => Some []
  | a :: b :: c :: d :: e :: rest =>
      cons (np_item <$> [a; b; c; d; e]) <$> reshape5 rest
  | _ => None
  end.

(** [s[i]] *)
Definition char_at (s : bytes) (i : nat) : res ascii :=
  or_raise IndexError (s !! i).

(** ** Serial port

    The port as the driver sees it: the characters written so far and the
    results of the reads to come, one entry per call of [read], each holding
    at most as many bytes as the call asks for.  Once the entries are used
    up every read times out and returns the empty string. *)
Record Serial := {
  written : bytes;
  incoming : list bytes;
}.

Definition serial_write (conn : Serial) (ch : ascii) : Serial :=
  {| written := written conn ++ [ch]; incoming := incoming conn |}.

Definition serial_read (conn : Serial) : bytes * Serial :=
  match incoming conn with
  | [] => ([], conn)
  | r :: rs => (r, {| written := written conn; incoming := rs |})
  end.

(** The thread object of [Thread(target=self._read, args=())]. *)
Inductive Thread := ReadThread.

(** [Thread.start()] starts the thread and returns [None]. *)
Definition thread_start (t : Thread) : option Thread := None.

Section Driver.
Context `{PyNum}.

(** ** [fourdof_to_matrix] and [local_to_global] *)

Definition fourdof_to_matrix (translation : list float64) (yaw : float64)
  : ndarray :=
  let T := rotation_matrix_z yaw in
  set_translation T translation.

(** The loop of [local_to_global] over the items of [local_poses], with the
    two accumulators. *)
Fixpoint resolve_items (marker_map : gmap bytes ndarray)
    (items : list (marker_key * ndarray))
    (global_poses : gmap bytes ndarray) (unknown_ids : gset bytes)
  : res (gmap bytes ndarray * gset bytes) :=
  match items with
  | [] => Return (global_poses, unknown_ids)
  | (marker_id, pose) :: items' =>
      let marker_id := py_str marker_id in
      match marker_map !! marker_id with
      | Some marker_to_map =>
          local_to_marker ← or_raise LinAlgError (linalg_inv pose);
          let local_to_map := dot marker_to_map local_to_marker in
          resolve_items marker_map items'
            (<[marker_id := local_to_map]> global_poses) unknown_ids
      | None =>
          resolve_items marker_map items'
            global_poses ({[marker_id]} ∪ unknown_ids)
      end
  end.

(** [local_poses] is given by its items in iteration order. *)
Definition local_to_global (marker_map : gmap bytes ndarray)
    (local_poses : list (marker_key * ndarray))
  : res (gmap bytes ndarray * gset bytes) :=
  resolve_items marker_map local_poses ∅ ∅.

(** ** The driver object *)

Record StarGazer := {
  marker_map : gmap bytes ndarray;
  connection : option Serial;
  _chunk_size : nat;
  (** whether a callback was given *)
  _callback_global : bool;
  _callback_local : bool;
  _stopped : bool;
  _thread : option Thread;
}.

(** What the read loop does to the outside: calls of the two callbacks and
    the two [rospy.logerr] lines. *)
Inductive event :=
| LogBadLength (message : bytes)
| CallbackGlobal (global_pose : gmap bytes ndarray) (unknown_ids : gset bytes)
| CallbackLocal (pose_local : gmap Z ndarray)
| LogProcessingError (e : exn) (content : bytes).

(** ** [process_raw_pose] *)

(** [np.array(split[2:]).astype(float)] *)
Definition astype_float (fields : list bytes) : res (list float64) :=
  or_raise ValueError (mapM py_float fields).

(** The body of the loop over the rows: the marker id and the matrix
    stored under it. *)
Definition decode_row (split : list bytes) : res (Z * ndarray) :=
  f0 ← or_raise IndexError (split !! 0);
  marker_id ← or_raise ValueError (py_int f0);
  f1 ← or_raise IndexError (split !! 1);
  degrees ← or_raise ValueError (py_float f1);
  let local_angle := radians degrees in
  floats ← astype_float (drop 2 split);
  let local_cartesian := (fun v => fmul v centi) <$> floats in
  negated ← or_raise IndexError (local_cartesian !! 2);
  let local_cartesian := <[2 := fneg negated]> local_cartesian in
  let marker_to_stargazer :=
    fourdof_to_matrix local_cartesian (fneg local_angle) in
  inverse ← or_raise LinAlgError (linalg_inv marker_to_stargazer);
  Return (marker_id, inverse).

Fixpoint decode_rows (rows : list (list bytes)) (pose_local : gmap Z ndarray)
  : res (gmap Z ndarray) :=
  match rows with
  | [] => Return pose_local
  | split :: rows' =>
      '(marker_id, inverse) ← decode_row split;
      decode_rows rows' (<[marker_id := inverse]> pose_local)
  end.

(** The items of [pose_local], whose keys are integers. *)
Definition items (pose_local : gmap Z ndarray)
  : list (marker_key * ndarray) :=
  (fun kv => (IntId kv.1, kv.2)) <$> map_to_list pose_local.

Definition process_raw_pose (self : StarGazer) (message : bytes)
  : res (list event) :=
  count_char ← char_at message 1;
  marker_count ← or_raise ValueError (py_int [count_char]);
  let raw_split := split DELIM (drop 2 message) in
  if decide (Z.of_nat (length raw_split) ≠ (marker_count * 5)%Z) then
    Return [LogBadLength message]
  else
    rows ← or_raise ValueError (reshape5 raw_split);
    pose_local ← decode_rows rows ∅;
    global_events ←
      (if _callback_global self then
         '(global_pose, unknown_ids) ←
           local_to_global (marker_map self) (items pose_local);
         Return [CallbackGlobal global_pose unknown_ids]
       else Return []);
    Return (global_events ++
            if _callback_local self then [CallbackLocal pose_local] else []).

(** The ways a frame can be wrong for [process_raw_pose]. *)

(** The count character is missing or is no integer. *)
Definition bad_count (message : bytes) : Prop :=
  match message !! 1 with
  | Some c => py_int [c] = None
  | None => True
  end.

(** The count is read and the number of fields is not five times it. *)
Definition bad_length (message : bytes) : Prop :=
  exists c marker_count,
    message !! 1 = Some c /\ py_int [c] = Some marker_count /\
    Z.of_nat (length (split DELIM (drop 2 message))) <> (marker_count * 5)%Z.

(** A field of a row that does not convert: the marker id in column 0, a
    float in the other columns. *)
Definition bad_field (row : list bytes) : Prop :=
  exists i f,
    row !! i = Some f /\
    match i with
    | O => py_int f = None
    | S _ => py_float f = None
    end.

(** The count is read, the number of fields is five times it, and a field
    of some row does not convert. *)
Definition bad_number (message : bytes) : Prop :=
  exists c marker_count rows,
    message !! 1 = Some c /\ py_int [c] = Some marker_count /\
    Z.of_nat (length (split DELIM (drop 2 message))) = (marker_count * 5)%Z /\
    reshape5 (split DELIM (drop 2 message)) = Some rows /\
    Exists bad_field rows.

(** ** [process_buffer] and the read loop *)

(** The [for] loop over the candidates: what happened before an exception
    stays done. *)
Fixpoint process_candidates (self : StarGazer) (messages : list bytes)
  : list event * res unit :=
  match messages with
  | [] => ([], Return ())
  | message :: messages' =>
      match process_raw_pose self message with
      | Raise e => ([], Raise e)
      | Return evs =>
          let '(evs', r) := process_candidates self messages' in
          (evs ++ evs', r)
      end
  end.

Definition process_buffer (self : StarGazer) (message_buffer : bytes)
  : list event * res bytes :=
  let '(evs, r) := process_candidates self (payloads message_buffer) in
  (evs, _ ← r; Return (remaining message_buffer)).

(** How the [while] loop was left: its condition became false, or [break]. *)
Inductive read_exit := Stopped | Broke.

(** The loop of [_read]; [chunks] are the results of the successive
    [self.connection.read(self._chunk_size)] for as long as the condition of
    the loop holds.  Returns the events, the final [message_buffer] and how
    the loop was left. *)
Fixpoint read_loop (self : StarGazer) (message_buffer : bytes)
    (chunks : list bytes) : list event * (bytes * read_exit) :=
  match chunks with
  | [] => ([], (message_buffer, Stopped))
  | chunk :: chunks' =>
      let message_buffer := message_buffer ++ chunk in
      match process_buffer self message_buffer with
      | (evs, Return message_buffer) =>
          let '(evs', final) := read_loop self message_buffer chunks' in
          (evs ++ evs', final)
      | (evs, Raise e) =>
          (evs ++ [LogProcessingError e message_buffer], ([], Broke))
      end
  end.

Definition _read (self : StarGazer) (chunks : list bytes)
  : list event * (bytes * read_exit) :=
  read_loop self [] chunks.

End Driver.

(** ** The command channel *)

(** [s[-n:]] *)
Definition last_chars (n : nat) (s : bytes) : bytes :=
  match n with
  | O => s
  | _ => drop (length s - n) s
  end.

(** The [while] loop of [_send_command]; [incoming] are the results of the
    calls of [self.connection.read()] to come.  Returns the entries left
    unread. *)
Fixpoint await_response (command_str response_expected response_actual : bytes)
    (incoming : list bytes) : list bytes * res unit :=
  if decide (last_chars (length response_expected) response_actual
             = response_expected)
  then (incoming, Return ())
  else
    match incoming with
    | [] =>
        ([], Raise (CommandError command_str response_actual response_expected))
    | c :: incoming' =>
        if decide (c = []) then
          (incoming',
           Raise (CommandError command_str response_actual response_expected))
        else
          await_response command_str response_expected (response_actual ++ c)
            incoming'
    end.

Definition command_frame (args : list bytes) : bytes :=
  [STX] ++ [CMD] ++ join DELIM args ++ [ETX].

Definition response_frame (args : list bytes) : bytes :=
  [STX] ++ [RESPONSE] ++ join DELIM args ++ [ETX].

(** [_send_command] with its arguments, on the open port. *)
Definition _send_command (conn : Serial) (args : list bytes)
  : Serial * res unit :=
  let command_str := command_frame args in
  let conn := foldl serial_write conn command_str in
  let response_expected := response_frame args in
  let '(response_actual, conn) := serial_read conn in
  let '(incoming', r) :=
    await_response command_str response_expected response_actual
      (incoming conn) in
  ({| written := written conn; incoming := incoming' |}, r).

(** ** Connection and streaming *)

Section Lifecycle.
Context `{PyNum}.

(** The driver object together with the threads that were started and not
    joined. *)
Record Process := {
  driver : StarGazer;
  threads : list Thread;
}.

Definition is_connected (self : StarGazer) : bool :=
  match connection self with
  | Some _ => true
  | None => false
  end.

Definition is_streaming (self : StarGazer) : bool :=
  match _thread self with
  | Some _ => true
  | None => false
  end.

Definition set_connection (self : StarGazer) (c : option Serial)
  : StarGazer :=
  {| marker_map := marker_map self; connection := c;
     _chunk_size := _chunk_size self;
     _callback_global := _callback_global self;
     _callback_local := _callback_local self;
     _stopped := _stopped self; _thread := _thread self |}.

Definition set_thread (self : StarGazer) (t : option Thread) : StarGazer :=
  {| marker_map := marker_map self; connection := connection self;
     _chunk_size := _chunk_size self;
     _callback_global := _callback_global self;
     _callback_local := _callback_local self;
     _stopped := _stopped self; _thread := t |}.

Definition set_stopped (self : StarGazer) : StarGazer :=
  {| marker_map := marker_map self; connection := connection self;
     _chunk_size := _chunk_size self;
     _callback_global := _callback_global self;
     _callback_local := _callback_local self;
     _stopped := true; _thread := _thread self |}.

(** [StarGazer(device, marker_map, callback_global, callback_local)] *)
Definition __init__ (marker_map : gmap bytes ndarray)
    (callback_global callback_local : bool) : StarGazer :=
  {| marker_map := marker_map; connection := None; _chunk_size := 80;
     _callback_global := callback_global; _callback_local := callback_local;
     _stopped := false; _thread := None |}.

(** [connect]; [port] is the port that [Serial(...)] opens. *)
Definition connect (p : Process) (port : Serial) : Process * res unit :=
  if negb (is_connected (driver p)) then
    ({| driver := set_connection (driver p) (Some port);
        threads := threads p |}, Return ())
  else (p, Raise AssertionError).

(** A command sent from a method of the driver, which has checked that the
    port is open. *)
Definition send (p : Process) (args : list bytes) : Process * res unit :=
  match connection (driver p) with
  | Some conn =>
      let '(conn, r) := _send_command conn args in
      ({| driver := set_connection (driver p) (Some conn);
          threads := threads p |}, r)
  | None => (p, Raise AssertionError)
  end.

Definition start_streaming (p : Process) : Process * res unit :=
  if is_connected (driver p) && negb (is_streaming (driver p)) then
    match send p [lit "CalcStart"] with
    | (p, Return _) =>
        let t := ReadThread in
        ({| driver := set_thread (driver p) (thread_start t);
            threads := t :: threads p |}, Return ())
    | (p, Raise e) => (p, Raise e)
    end
  else (p, Raise AssertionError).

Definition stop_streaming (p : Process) : Process * res unit :=
  if is_connected (driver p) then
    let p :=
      if is_streaming (driver p) then
        {| driver := set_stopped (driver p); threads := [] |}
      else p in
    send p [lit "CalcStop"]
  else (p, Raise AssertionError).

Definition set_parameter (p : Process) (name value : bytes)
  : Process * res unit :=
  if is_connected (driver p) && negb (is_streaming (driver p)) then
    send p [name; value]
  else (p, Raise AssertionError).

(** The bytes written to the port so far. *)
Definition port_output (p : Process) : bytes :=
  match connection (driver p) with
  | Some conn => written conn
  | None => []
  end.

(** [disconnect]: the port is closed and forgotten. *)
Definition disconnect (p : Process) : Process :=
  if is_connected (driver p) then
    {| driver := set_connection (driver p) None; threads := threads p |}
  else p.

(** The calls a client makes on the driver, and a session of such calls in
    which the client goes on after an exception. *)
Inductive call :=
  | Connect (port : Serial)
  | Disconnect
  | StartStreaming
  | StopStreaming
  | SetParameter (name value : bytes).

Definition invoke (p : Process) (c : call) : Process * res unit :=
  match c with
  | Connect port => connect p port
  | Disconnect => (disconnect p, Return ())
  | StartStreaming => start_streaming p
  | StopStreaming => stop_streaming p
  | SetParameter name value => set_parameter p name value
  end.

Fixpoint session (p : Process) (calls : list call)
  : Process * list (res unit) :=
  match calls with
  | [] => (p, [])
  | c :: calls' =>
      let '(p, r) := invoke p c in
      let '(p, rs) := session p calls' in
      (p, r :: rs)
  end.

End Lifecycle.

(** ** The builtins in exact real arithmetic

    An instance of [PyNum] in which floats are real numbers, conversions
    read decimal literals (an optional sign, digits, an optional fraction)
    exactly, and matrices are lists of rows.  It is an idealisation of the
    interpreter: it neither rounds nor overflows, and it reads fewer
    literals than Python does (no exponent, no [inf] or [nan], no white
    space around the digits).  The properties of the driver are stated over
    [PyNum]; this instance serves to run the decoder on concrete frames
    whose fields it reads as Python does, and to show that the hypotheses
    of those properties can be met. *)
Module Exact.

Local Open Scope R_scope.

Abbreviation matrix := (list (list R)).

Definition digit (c : ascii) : option Z :=
  let n := Z.of_nat (nat_of_ascii c) in
  if decide (48 <= n <= 57)%Z then Some (n - 48)%Z else None.

(** The value of a run of digits after the digits worth [acc]; [None] when
    a character is no digit. *)
Fixpoint digits (acc : Z) (s : bytes) : option Z :=
  match s with
  | [] => Some acc
  | c :: s' => d ← digit c; digits (10 * acc + d)%Z s'
  end.

Definition unsigned (s : bytes) : option Z :=
  match s with
  | [] => None
  | _ => digits 0 s
  end.

(** An optional sign in front of [s]: whether it is a minus, and the rest. *)
Definition sign (s : bytes) : bool * bytes :=
  match s with
  | c :: s' =>
      if decide (c = "-"%char) then (true, s')
      else if decide (c = "+"%char) then (false, s')
      else (false, s)
  | [] => (false, s)
  end.

Definition signed (negative : bool) (z : Z) : Z :=
  if negative then (- z)%Z else z.

Definition int (s : bytes) : option Z :=
  let '(negative, s) := sign s in
  signed negative <$> unsigned s.

(** The mantissa and the number of fraction digits of a decimal literal. *)
Definition decimal (s : bytes) : option (Z * nat) :=
  let '(negative, s) := sign s in
  match split "."%char s with
  | [whole] => m ← unsigned whole; Some (signed negative m, O)
  | [whole; fraction] =>
      m ← unsigned (whole ++ fraction);
      Some (signed negative m, length fraction)
  | _ => None
  end.

Definition float (s : bytes) : option R :=
  '(m, k) ← decimal s; Some (IZR m / IZR (10 ^ Z.of_nat k)).

Definition rotation_z (yaw : R) : matrix :=
  [ [cos yaw; - sin yaw; 0; 0];
    [sin yaw;   cos yaw; 0; 0];
    [0; 0; 1; 0];
    [0; 0; 0; 1] ].

(** Column 3 of the rows 0 to 2 receives the translation. *)
Definition assign_translation (T : matrix) (translation : list R) : matrix :=
  imap (fun i row =>
          match translation !! i with
          | Some v => <[3%nat := v]> row
          | None => row
          end) T.

Definition entry (M : matrix) (i j : nat) : R :=
  default 0 (row ← M !! i; row !! j).

Definition rsum (l : list R) : R := foldr Rplus 0 l.

Definition alternate (k : nat) (x : R) : R :=
  if Nat.even k then x else - x.

(** [M] without row [i] and column [j]. *)
Definition minor (i j : nat) (M : matrix) : matrix :=
  delete j <$> delete i M.

(** The determinant of the leading [n] by [n] matrix, along the first row. *)
Fixpoint det (n : nat) (M : matrix) : R :=
  match n with
  | O => 1
  | S n' =>
      rsum ((fun j => alternate j (entry M 0 j * det n' (minor 0 j M)))
              <$> seq 0 n)
  end.

(** The inverse by cofactors; none when the determinant is zero. *)
Definition inverse (M : matrix) : option matrix :=
  let n := length M in
  let d := det n M in
  if Req_EM_T d 0 then None
  else Some ((fun i =>
                (fun j => alternate (i + j) (det (n - 1) (minor j i M)) / d)
                  <$> seq 0 n)
               <$> seq 0 n).

Definition product (A B : matrix) : matrix :=
  (fun i =>
     (fun j => rsum ((fun k => entry A i k * entry B k j) <$> seq 0 (length B)))
       <$> seq 0 (length (default [] (B !! 0%nat))))
    <$> seq 0 (length A).

Definition identity : matrix :=
  [ [1; 0; 0; 0]; [0; 1; 0; 0]; [0; 0; 1; 0]; [0; 0; 0; 1] ].

Global Instance real : PyNum := {|
  float64 := R;
  ndarray := matrix;
  py_int := int;
  py_float := float;
  radians := fun x => x * (PI / 180);
  fmul := Rmult;
  fneg := Ropp;
  centi := 1 / 100;
  rotation_matrix_z := rotation_z;
  set_translation := assign_translation;
  linalg_inv := inverse;
  dot := product;
|}.

End Exact.

(** * Properties *)

(** ** The last [ETX] *)

Lemma rindex_None c s : rindex c s = None <-> c ∉ s.
Proof.
  induction s as [|x s IH]; simpl.
  - split; [intros _; apply not_elem_of_nil | done].
  - destruct (rindex c s) as [i|].
    + split; [done|]. intros Hn. exfalso.
      assert (c ∉ s) as Hs by (intros ?; apply Hn; by right).
      apply IH in Hs. done.
    + destruct (decide (x = c)) as [->|Hx].
      * split; [done|]. intros Hn. exfalso. apply Hn. by left.
      * split; [|done]. intros _ [->|Hin]%elem_of_cons; [done|].
        by apply IH in Hin.
Qed.

Lemma rindex_last c u v :
  c ∉ v -> rindex c (u ++ c :: v) = Some (length u).
Proof.
  intros Hv. induction u as [|x u IH]; simpl.
  - apply rindex_None in Hv. rewrite Hv. by rewrite decide_True.
  - by rewrite IH.
Qed.

Lemma remaining_without s : ETX ∉ s -> remaining s = s.
Proof. intros Hs. unfold remaining. apply rindex_None in Hs. by rewrite Hs. Qed.

Lemma remaining_last u v : ETX ∉ v -> remaining (u ++ ETX :: v) = v.
Proof.
  intros Hv. unfold remaining. rewrite rindex_last by done.
  change (u ++ ETX :: v) with (u ++ [ETX] ++ v). rewrite app_assoc.
  replace (S (length u)) with (length (u ++ [ETX]))
    by (rewrite length_app; simpl; lia).
  apply drop_app_length.
Qed.

Lemma remaining_absorb u v : remaining (remaining u ++ v) = remaining (u ++ v).
Proof.
  destruct (decide (ETX ∈ v)) as [Hv|Hv].
  - apply list_elem_of_split_r in Hv as (v1 & v2 & -> & Hv2).
    rewrite !app_assoc. by rewrite !remaining_last.
  - destruct (decide (ETX ∈ u)) as [Hu|Hu].
    + apply list_elem_of_split_r in Hu as (u1 & u2 & -> & Hu2).
      rewrite remaining_last by done.
      assert (ETX ∉ u2 ++ v) as Huv.
      { rewrite elem_of_app. tauto. }
      rewrite remaining_without by done.
      rewrite <- app_assoc. simpl. by rewrite remaining_last.
    + by rewrite (remaining_without u).
Qed.

(** ** The matcher *)

Lemma upto_etx_without s : ETX ∉ s -> Matcher.upto_etx s = None.
Proof.
  induction s as [|c s IH]; simpl; [done|]. intros Hn.
  rewrite decide_False by (intros ->; apply Hn; by left).
  case_decide; [done|]. rewrite IH; [done|].
  intros ?; apply Hn; by right.
Qed.

(** A successful lazy search stops at the first [ETX], with no line feed
    before it. *)
Lemma upto_etx_Some s m :
  Matcher.upto_etx s = Some m ->
  exists m0 rest,
    m = m0 ++ [ETX] /\ s = m0 ++ ETX :: rest /\ (ETX ∉ m0) /\ (LF ∉ m0).
Proof.
  revert m. induction s as [|c s IH]; simpl; intros m Hm; [done|].
  destruct (decide (c = ETX)) as [->|Hc].
  - injection Hm as <-. exists [], s. repeat split; apply not_elem_of_nil.
  - destruct (decide (c = LF)) as [|Hl]; [done|].
    destruct (Matcher.upto_etx s) as [m'|] eqn:E; [|done].
    injection Hm as <-. destruct (IH _ eq_refl) as (m0 & rest & -> & -> & H1 & H2).
    exists (c :: m0), rest. repeat split; try done.
    + intros [?|?]%elem_of_cons; congruence.
    + intros [?|?]%elem_of_cons; congruence.
Qed.

(** A failed one met a line feed first, or no [ETX] at all. *)
Lemma upto_etx_None s :
  Matcher.upto_etx s = None ->
  (exists m0 rest, s = m0 ++ LF :: rest /\ (ETX ∉ m0) /\ (LF ∉ m0)) \/ ETX ∉ s.
Proof.
  induction s as [|c s IH]; simpl; intros Hm.
  - right. apply not_elem_of_nil.
  - destruct (decide (c = ETX)) as [->|Hc]; [done|].
    destruct (decide (c = LF)) as [->|Hl].
    + left. exists [], s. repeat split; apply not_elem_of_nil.
    + destruct (Matcher.upto_etx s) as [m'|] eqn:E; [done|].
      destruct (IH eq_refl) as [(m0 & rest & -> & H1 & H2)|Hn].
      * left. exists (c :: m0), rest. repeat split; try done.
        -- intros [?|?]%elem_of_cons; congruence.
        -- intros [?|?]%elem_of_cons; congruence.
      * right. intros [?|?]%elem_of_cons; congruence.
Qed.

Lemma upto_etx_blocked m0 rest :
  ETX ∉ m0 -> Matcher.upto_etx (m0 ++ LF :: rest) = None.
Proof.
  induction m0 as [|c m0 IH]; simpl; intros Hn; [done|].
  rewrite decide_False by (intros ->; apply Hn; by left).
  case_decide; [done|]. rewrite IH; [done|].
  intros ?; apply Hn; by right.
Qed.

(** Stepping over the characters of a match. *)
Lemma findall_from_skip a c rest prev :
  Matcher.findall_from prev (length (a ++ [c])) (a ++ c :: rest)
  = Matcher.findall_from (Some c) 0 rest.
Proof.
  revert prev. induction a as [|x a IH]; intros prev; simpl; [done|].
  apply IH.
Qed.

Lemma findall_from_without s prev :
  ETX ∉ s -> Matcher.findall_from prev 0 s = [].
Proof.
  revert prev. induction s as [|c s IH]; intros prev Hn; simpl; [done|].
  assert (ETX ∉ s) as Hs by (intros ?; apply Hn; by right).
  unfold Matcher.match_here. case_decide; simpl.
  - case_decide; [by apply IH|].
    rewrite upto_etx_without by done. simpl. by apply IH.
  - by apply IH.
Qed.

Lemma findall_from_blocked m0 rest prev :
  ETX ∉ m0 ->
  Matcher.findall_from prev 0 (m0 ++ LF :: rest)
  = Matcher.findall_from (Some LF) 0 rest.
Proof.
  revert prev. induction m0 as [|c m0 IH]; intros prev Hn; simpl.
  - unfold Matcher.match_here. by case_decide.
  - assert (ETX ∉ m0) as Hs by (intros ?; apply Hn; by right).
    unfold Matcher.match_here. case_decide; simpl.
    + case_decide; [by apply IH|].
      rewrite upto_etx_blocked by done. simpl. by apply IH.
    + by apply IH.
Qed.

(** ** The one-pass view *)

Lemma run_app st u v :
  Scan.run st (u ++ v)
  = ((Scan.run st u).1 ++ (Scan.run (Scan.run st u).2 v).1,
     (Scan.run (Scan.run st u).2 v).2).
Proof.
  revert st. induction u as [|c u IH]; intros st; simpl.
  - by destruct (Scan.run st v).
  - destruct (Scan.step st c) as [st' o]. rewrite IH.
    destruct (Scan.run st' u) as [o1 st1]; simpl.
    destruct (Scan.run st1 v) as [o2 st2]; simpl.
    by destruct o.
Qed.

Lemma run_open_match acc m0 rest :
  ETX ∉ m0 -> LF ∉ m0 ->
  Scan.run (Scan.Open acc) (m0 ++ ETX :: rest)
  = ((acc ++ m0 ++ [ETX]) :: (Scan.run Scan.Idle rest).1,
     (Scan.run Scan.Idle rest).2).
Proof.
  revert acc. induction m0 as [|c m0 IH]; intros acc H1 H2; simpl.
  - by destruct (Scan.run Scan.Idle rest).
  - rewrite decide_False by (intros ->; apply H1; by left).
    rewrite decide_False by (intros ->; apply H2; by left).
    rewrite IH.
    + by rewrite <- app_assoc.
    + intros ?; apply H1; by right.
    + intros ?; apply H2; by right.
Qed.

Lemma run_open_blocked acc m0 rest :
  ETX ∉ m0 -> LF ∉ m0 ->
  Scan.run (Scan.Open acc) (m0 ++ LF :: rest) = Scan.run Scan.Idle rest.
Proof.
  revert acc. induction m0 as [|c m0 IH]; intros acc H1 H2; simpl.
  - by destruct (Scan.run Scan.Idle rest).
  - rewrite decide_False by (intros ->; apply H1; by left).
    rewrite decide_False by (intros ->; apply H2; by left).
    rewrite IH; [by destruct (Scan.run Scan.Idle rest)| |].
    + intros ?; apply H1; by right.
    + intros ?; apply H2; by right.
Qed.

Lemma run_without st s : ETX ∉ s -> (Scan.run st s).1 = [].
Proof.
  revert st. induction s as [|c s IH]; intros st Hn; simpl; [done|].
  assert (ETX ∉ s) as Hs by (intros ?; apply Hn; by right).
  assert (c <> ETX) as Hc by (intros ->; apply Hn; by left).
  destruct st; simpl.
  - specialize (IH (Scan.after (Some c)) Hs).
    by destruct (Scan.run (Scan.after (Some c)) s).
  - case_decide.
    + specialize (IH Scan.Idle Hs). by destruct (Scan.run Scan.Idle s).
    + specialize (IH (Scan.Open [c]) Hs). by destruct (Scan.run (Scan.Open [c]) s).
  - rewrite decide_False by done. case_decide.
    + specialize (IH Scan.Idle Hs). by destruct (Scan.run Scan.Idle s).
    + specialize (IH (Scan.Open (acc ++ [c])) Hs).
      by destruct (Scan.run (Scan.Open (acc ++ [c])) s).
Qed.

(** The automaton computes [findall]. *)
Lemma findall_from_run s : forall prev,
  Matcher.findall_from prev 0 s = (Scan.run (Scan.after prev) s).1.
Proof.
  induction s as [s IH] using (induction_ltof1 _ (@length ascii)).
  unfold ltof in IH. intros prev. destruct s as [|c s]; [done|].
  simpl Matcher.findall_from. unfold Matcher.match_here, Scan.after at 1.
  destruct (decide (prev = Some STX)) as [Hp|Hp]; simpl.
  2:{ rewrite IH by (simpl; lia).
      by destruct (Scan.run (Scan.after (Some c)) s). }
  destruct (decide (c = LF)) as [->|Hc].
  { rewrite IH by (simpl; lia). unfold Scan.after.
    rewrite decide_False by done. by destruct (Scan.run Scan.Idle s). }
  destruct (Matcher.upto_etx s) as [m|] eqn:E; simpl.
  - apply upto_etx_Some in E as (m0 & rest & -> & -> & H1 & H2).
    rewrite Nat.sub_0_r, findall_from_skip, run_open_match by done.
    rewrite IH by (simpl; rewrite length_app; simpl; lia).
    simpl. unfold Scan.after. by rewrite decide_False by done.
  - apply upto_etx_None in E as [(m0 & rest & -> & H1 & H2)|Hn].
    + rewrite findall_from_blocked, run_open_blocked by done.
      rewrite IH by (simpl; rewrite length_app; simpl; lia).
      unfold Scan.after. rewrite decide_False by done.
      by destruct (Scan.run Scan.Idle rest).
    + rewrite findall_from_without by done.
      pose proof (run_without (Scan.Open [c]) s Hn) as Hr.
      by destruct (Scan.run (Scan.Open [c]) s).
Qed.

Lemma findall_run s : Matcher.findall s = (Scan.run Scan.Idle s).1.
Proof. apply (findall_from_run s None). Qed.

(** ** Buffers without an empty frame *)

Lemma no_empty_frame_tail c s : ~ has_empty_frame (c :: s) -> ~ has_empty_frame s.
Proof. intros Hn (u & v & ->). apply Hn. by exists (c :: u), v. Qed.

Lemma no_empty_frame_app_l u v : ~ has_empty_frame (u ++ v) -> ~ has_empty_frame u.
Proof.
  intros Hn (a & b & ->). apply Hn. exists a, (b ++ v).
  by rewrite <- app_assoc.
Qed.

Lemma no_empty_frame_head s :
  ~ has_empty_frame (STX :: s) -> head s <> Some ETX.
Proof.
  intros Hn Hs. destruct s as [|c s]; [done|]. injection Hs as ->.
  apply Hn. by exists [], s.
Qed.

(** [Armed] is entered by reading [STX] and in no other way. *)
Lemma run_armed u :
  (Scan.run Scan.Idle u).2 = Scan.Armed -> exists u', u = u' ++ [STX].
Proof.
  destruct u as [|c u _] using rev_ind; [done|].
  rewrite run_app. simpl. destruct (Scan.run Scan.Idle u) as [o st]; simpl.
  destruct st; simpl.
  - unfold Scan.after. case_decide as Hc; [|done].
    injection Hc as ->. by exists u.
  - by case_decide.
  - by repeat case_decide.
Qed.

(** After an [ETX] that closes no empty frame the search starts afresh. *)
Lemma run_etx_idle u :
  ~ has_empty_frame (u ++ [ETX]) -> (Scan.run Scan.Idle (u ++ [ETX])).2 = Scan.Idle.
Proof.
  intros Hn. rewrite run_app. simpl.
  destruct (Scan.run Scan.Idle u) as [o st] eqn:E; simpl.
  destruct st; simpl; [done| |done].
  exfalso. destruct (run_armed u) as [u' ->]; [by rewrite E|].
  apply Hn. exists u', []. by rewrite <- app_assoc.
Qed.

Lemma payloads_run s : payloads s = drop_last <$> (Scan.run Scan.Idle s).1.
Proof. unfold payloads. by rewrite findall_run. Qed.

Lemma payloads_without s : ETX ∉ s -> payloads s = [].
Proof. intros Hn. by rewrite payloads_run, run_without. Qed.

Lemma payloads_cut u x :
  ~ has_empty_frame (u ++ [ETX]) ->
  payloads (u ++ ETX :: x) = payloads (u ++ [ETX]) ++ payloads x.
Proof.
  intros Hn. rewrite !payloads_run.
  change (u ++ ETX :: x) with (u ++ [ETX] ++ x).
  rewrite app_assoc, run_app. simpl. rewrite run_etx_idle by done.
  by rewrite fmap_app.
Qed.

(** What a pass leaves behind is all a later pass needs. *)
Lemma payloads_carry u v :
  ~ has_empty_frame u ->
  payloads (u ++ v) = payloads u ++ payloads (remaining u ++ v).
Proof.
  intros Hn. destruct (decide (ETX ∈ u)) as [Hu|Hu].
  - apply list_elem_of_split_r in Hu as (u1 & u2 & -> & Hu2).
    assert (~ has_empty_frame (u1 ++ [ETX])) as H1.
    { apply (no_empty_frame_app_l _ u2). by rewrite <- app_assoc. }
    rewrite remaining_last by done.
    rewrite <- app_assoc. simpl.
    rewrite (payloads_cut u1 (u2 ++ v)), (payloads_cut u1 u2) by done.
    rewrite <- app_assoc. f_equal.
    by rewrite (payloads_without u2).
  - rewrite remaining_without by done. by rewrite (payloads_without u).
Qed.

Lemma feed_carry chunks : forall pre,
  ~ has_empty_frame (pre ++ concat chunks) ->
  payloads (pre ++ concat chunks)
  = payloads pre ++ (feed (remaining pre) chunks).1
  /\ (feed (remaining pre) chunks).2 = remaining (pre ++ concat chunks).
Proof.
  induction chunks as [|c cs IH]; intros pre Hn; simpl.
  - by rewrite !app_nil_r.
  - rewrite remaining_absorb.
    simpl in Hn. rewrite app_assoc in Hn. destruct (IH (pre ++ c) Hn) as [IH1 IH2].
    destruct (feed (remaining (pre ++ c)) cs) as [out final]; simpl in *.
    rewrite app_assoc, IH1, IH2. split; [|done].
    rewrite (payloads_carry pre c).
    + by rewrite <- app_assoc.
    + by apply no_empty_frame_app_l in Hn; apply no_empty_frame_app_l in Hn.
Qed.

(** The automaton and the scan of the specification agree where no line
    feed and no empty frame occur. *)
Lemma run_frames s : forall st,
  LF ∉ s -> ~ has_empty_frame s ->
  (st = Scan.Armed -> head s <> Some ETX) ->
  drop_last <$> (Scan.run st s).1 = FrameSpec.scan (Scan.open_span st) s.
Proof.
  induction s as [|c s IH]; intros st Hl Hn Ha; [done|].
  assert (LF ∉ s) as Hl' by (intros ?; apply Hl; by right).
  assert (c <> LF) as Hc by (intros ->; apply Hl; by left).
  pose proof (no_empty_frame_tail _ _ Hn) as Hn'.
  simpl. destruct st; simpl.
  - unfold Scan.after. destruct (decide (c = STX)) as [->|Hs].
    + rewrite decide_True by done.
      specialize (IH Scan.Armed Hl' Hn' (fun _ => no_empty_frame_head _ Hn)).
      by destruct (Scan.run Scan.Armed s).
    + rewrite decide_False by congruence.
      specialize (IH Scan.Idle Hl' Hn'). 
      destruct (Scan.run Scan.Idle s). by apply IH.
  - rewrite decide_False by done.
    rewrite decide_False by (intros ->; by apply Ha).
    specialize (IH (Scan.Open [c]) Hl' Hn').
    destruct (Scan.run (Scan.Open [c]) s). by apply IH.
  - destruct (decide (c = ETX)) as [->|He].
    + specialize (IH Scan.Idle Hl' Hn').
      destruct (Scan.run Scan.Idle s). simpl.
      unfold drop_last at 1. rewrite removelast_last. f_equal. by apply IH.
    + rewrite decide_False by done.
      specialize (IH (Scan.Open (acc ++ [c])) Hl' Hn').
      destruct (Scan.run (Scan.Open (acc ++ [c])) s). by apply IH.
Qed.

Lemma empty_frame_in_complete s : has_empty_frame s -> empty_frame_in s = true.
Proof.
  intros (u & v & ->). induction u as [|c u IH]; [done|].
  simpl. rewrite IH. destruct (u ++ STX :: ETX :: v) eqn:E.
  - by destruct u.
  - apply orb_true_r.
Qed.

Lemma run_no_stx pre : STX ∉ pre -> Scan.run Scan.Idle pre = ([], Scan.Idle).
Proof.
  induction pre as [|c pre IH]; intros Hn; simpl; [done|].
  unfold Scan.after. rewrite decide_False.
  - rewrite IH; [done|]. intros ?; apply Hn; by right.
  - intros [= ->]. apply Hn. by left.
Qed.

(** Every match is a non-empty run closed by [ETX]. *)
Lemma run_outputs s : forall st m,
  (forall acc, st = Scan.Open acc -> acc <> []) ->
  m ∈ (Scan.run st s).1 -> exists a, m = a ++ [ETX] /\ a <> [].
Proof.
  induction s as [|c s IH]; intros st m Hst; simpl; [by intros ?%elem_of_nil|].
  destruct st; simpl.
  - specialize (IH (Scan.after (Some c)) m).
    destruct (Scan.run (Scan.after (Some c)) s). apply IH.
    unfold Scan.after. intros acc. by case_decide.
  - case_decide.
    + specialize (IH Scan.Idle m). destruct (Scan.run Scan.Idle s).
      by apply IH.
    + specialize (IH (Scan.Open [c]) m). destruct (Scan.run (Scan.Open [c]) s).
      apply IH. by intros acc [= <-].
  - destruct (decide (c = ETX)) as [->|Hc].
    + specialize (IH Scan.Idle m). destruct (Scan.run Scan.Idle s). simpl.
      intros [->|Hin]%elem_of_cons.
      * exists acc. split; [done|]. by apply Hst.
      * by apply IH.
    + case_decide.
      * specialize (IH Scan.Idle m). destruct (Scan.run Scan.Idle s).
        by apply IH.
      * specialize (IH (Scan.Open (acc ++ [c])) m).
        destruct (Scan.run (Scan.Open (acc ++ [c])) s). apply IH.
        intros a [= <-]. by destruct acc.
Qed.

(** ** The claims on the frame extractor *)

(** C2, as stated, fails: a span with a line feed inside is not yielded,
    and an empty span yields nothing where its interior is the empty
    string. *)
Lemma frame_extractor_counterexample :
  payloads (lit "~a" ++ LF :: lit "b`")
  <> FrameSpec.frames (lit "~a" ++ LF :: lit "b`")
  /\ payloads (lit "~`") <> FrameSpec.frames (lit "~`").
Proof. split; vm_compute; discriminate. Qed.

(** C2, amended: in a buffer with no line feed and no [STX] immediately
    followed by [ETX], one pass yields the interiors of the spans from a
    [STX] to the next [ETX], left to right; in every buffer what is returned
    is what follows the last [ETX], and a buffer with no [ETX] is returned
    unchanged and yields nothing. *)
Theorem frame_extractor buf :
  (LF ∉ buf -> ~ has_empty_frame buf -> payloads buf = FrameSpec.frames buf)
  /\ (forall pre post,
        buf = pre ++ ETX :: post -> ETX ∉ post -> remaining buf = post)
  /\ (ETX ∉ buf -> payloads buf = [] /\ remaining buf = buf).
Proof.
  split; [|split].
  - intros Hl Hn. rewrite payloads_run. by apply (run_frames buf Scan.Idle).
  - intros pre post -> Hp. by apply remaining_last.
  - intros Hn. split; [by apply payloads_without | by apply remaining_without].
Qed.

Lemma frame_extractor_witness :
  payloads (lit "xy~ab`zz~c~d`~ef") = [lit "ab"; lit "c~d"]
  /\ remaining (lit "xy~ab`zz~c~d`~ef") = lit "~ef"
  /\ payloads (lit "~ef") = [] /\ remaining (lit "~ef") = lit "~ef".
Proof.
  destruct (frame_extractor (lit "xy~ab`zz~c~d`~ef")) as (H1 & H2 & _).
  destruct (frame_extractor (lit "~ef")) as (_ & _ & H3).
  split; [|split].
  - rewrite H1; [reflexivity| |].
    + intros H. by apply (bool_decide_pack _) in H.
    + intros H%empty_frame_in_complete. discriminate.
  - apply (H2 (lit "xy~ab`zz~c~d")). reflexivity.
    intros H. by apply (bool_decide_pack _) in H.
  - apply H3. intros H. by apply (bool_decide_pack _) in H.
Defined.

(** C3, as stated, fails: cut between an empty frame and what follows it,
    the stream yields nothing, while in one piece it yields a payload. *)
Lemma chunking_counterexample :
  (feed [] [lit "~`"; lit "x`"]).1 <> payloads (concat [lit "~`"; lit "x`"]).
Proof. vm_compute. discriminate. Qed.

(** C3, amended: for every byte sequence in which no [STX] is immediately
    followed by [ETX], and every way of cutting it into chunks, feeding the
    chunks one after the other yields the payloads of the whole sequence,
    and leaves the buffer the whole sequence leaves. *)
Theorem chunking_invariance chunks :
  ~ has_empty_frame (concat chunks) ->
  feed [] chunks = (payloads (concat chunks), remaining (concat chunks)).
Proof.
  intros Hn. destruct (feed_carry chunks [] Hn) as [H1 H2].
  change (remaining []) with (@nil ascii) in *. simpl in *.
  destruct (feed [] chunks) as [out final]; simpl in *. congruence.
Qed.

Lemma chunking_invariance_witness :
  feed [] [lit "x~^1"; lit "48|a"; lit "`~*Dead"; lit "Zone`~^"]
  = ([lit "^148|a"; lit "*DeadZone"], lit "~^").
Proof.
  rewrite chunking_invariance; [reflexivity|].
  intros H%empty_frame_in_complete. discriminate.
Defined.

(** C9, as stated, fails: when another [ETX] follows, the [ETX] of the
    empty frame opens a payload. *)
Lemma empty_frame_counterexample :
  payloads (lit "~`x`") = [ETX :: lit "x"] /\ payloads (lit "~`x`") <> [].
Proof. split; vm_compute; [reflexivity | discriminate]. Qed.

(** C9, amended: every payload is non-empty; and where no [STX] comes
    before an empty frame and no [ETX] after it, nothing is yielded and the
    buffer is cut after its [ETX]. *)
Theorem payloads_nonempty :
  (forall buf p, p ∈ payloads buf -> p <> [])
  /\ (forall pre post,
        STX ∉ pre -> ETX ∉ post ->
        payloads (pre ++ STX :: ETX :: post) = []
        /\ remaining (pre ++ STX :: ETX :: post) = post).
Proof.
  split.
  - intros buf p. rewrite payloads_run. intros (m & -> & Hm)%list_elem_of_fmap.
    apply run_outputs in Hm as (a & -> & Ha); [|done].
    unfold drop_last. by rewrite removelast_last.
  - intros pre post Hpre Hpost. split.
    + rewrite payloads_run, run_app, run_no_stx by done. simpl.
      pose proof (run_without (Scan.Open [ETX]) post Hpost) as Hr.
      destruct (Scan.run (Scan.Open [ETX]) post). simpl in *. by rewrite Hr.
    + change (pre ++ STX :: ETX :: post) with (pre ++ [STX] ++ ETX :: post).
      rewrite app_assoc. by apply remaining_last.
Qed.

Lemma payloads_nonempty_witness :
  lit "^1" <> []
  /\ payloads (lit "ab~`cd") = [] /\ remaining (lit "ab~`cd") = lit "cd".
Proof.
  destruct payloads_nonempty as [H1 H2]. split.
  - apply (H1 (lit "~^1`")). vm_compute. by left.
  - apply (H2 (lit "ab") (lit "cd")).
    + intros H. by apply (bool_decide_pack _) in H.
    + intros H. by apply (bool_decide_pack _) in H.
Defined.

(** ** Splitting and joining *)

Lemma split_nonempty sep s : split sep s <> [].
Proof.
  destruct s as [|c s]; simpl; [done|].
  case_decide; [done|]. by destruct (split sep s).
Qed.

Lemma split_without sep f : sep ∉ f -> split sep f = [f].
Proof.
  induction f as [|c f IH]; intros Hn; simpl; [done|].
  rewrite decide_False by (intros ->; apply Hn; by left).
  rewrite IH; [done|]. intros ?; apply Hn; by right.
Qed.

Lemma split_app sep f s :
  sep ∉ f ->
  split sep (f ++ sep :: s) = f :: split sep s.
Proof.
  induction f as [|c f IH]; intros Hn; simpl.
  - by rewrite decide_True.
  - rewrite decide_False by (intros ->; apply Hn; by left).
    rewrite IH; [done|]. intros ?; apply Hn; by right.
Qed.

Lemma split_join sep fields :
  fields <> [] -> Forall (fun f => sep ∉ f) fields ->
  split sep (join sep fields) = fields.
Proof.
  induction fields as [|f fs IH]; intros Hne Hall; [done|].
  apply Forall_cons in Hall as [Hf Hfs].
  destruct fs as [|g fs]; simpl.
  - by apply split_without.
  - rewrite split_app by done. f_equal. by apply IH.
Qed.

Lemma reshape5_length raw_split rows :
  reshape5 raw_split = Some rows -> Forall (fun row => length row = 5) rows.
Proof.
  revert rows.
  induction raw_split as [raw_split IH] using (induction_ltof1 _ (@length bytes)).
  unfold ltof in IH. intros rows.
  destruct raw_split as [|a [|b [|c [|d [|e rest]]]]]; simpl; try done.
  - intros [= <-]. constructor.
  - destruct (reshape5 rest) as [rows'|] eqn:E; simpl; [|done].
    intros [= <-]. constructor; [done|]. apply (IH rest); [simpl; lia | done].
Qed.

(** A list of fields whose length is five times a count reshapes. *)
Lemma reshape5_total raw_split (n : nat) :
  length raw_split = 5 * n -> is_Some (reshape5 raw_split).
Proof.
  revert raw_split. induction n as [|n IH]; intros raw_split Hl.
  - destruct raw_split; [by eexists | done].
  - destruct raw_split as [|a [|b [|c [|d [|e rest]]]]]; simpl in Hl; try lia.
    destruct (IH rest) as [rows Hr]; [lia|].
    simpl. rewrite Hr. by eexists.
Qed.

Section DecoderProperties.
Context `{PyNum}.

(** ** The decoder *)

Lemma decode_row_ok id yaw x y z marker_id degrees cx cy cz inverse :
  py_int id = Some marker_id ->
  py_float yaw = Some degrees ->
  py_float x = Some cx -> py_float y = Some cy -> py_float z = Some cz ->
  linalg_inv
    (fourdof_to_matrix [fmul cx centi; fmul cy centi; fneg (fmul cz centi)]
       (fneg (radians degrees))) = Some inverse ->
  decode_row [id; yaw; x; y; z] = Return (marker_id, inverse).
Proof.
  intros Hid Hyaw Hx Hy Hz Hinv. unfold decode_row, astype_float. simpl.
  rewrite Hid, Hyaw, Hx, Hy, Hz. simpl. by rewrite Hinv.
Qed.

Lemma decode_row_bad row :
  length row = 5 -> bad_field row -> raises (decode_row row).
Proof.
  intros Hl (i & f & Hi & Hf).
  destruct row as [|f0 [|f1 [|f2 [|f3 [|f4 [|]]]]]]; try done.
  unfold decode_row, astype_float, raises. simpl.
  destruct (py_int f0) as [marker_id|] eqn:E0; simpl; [|by eexists].
  destruct (py_float f1) as [degrees|] eqn:E1; simpl; [|by eexists].
  destruct (py_float f2) as [c2|] eqn:E2; simpl; [|by eexists].
  destruct (py_float f3) as [c3|] eqn:E3; simpl; [|by eexists].
  destruct (py_float f4) as [c4|] eqn:E4; simpl; [|by eexists].
  exfalso. destruct i as [|[|[|[|[|]]]]]; simpl in Hi; simplify_eq.
Qed.

Lemma decode_rows_bad rows : forall pose_local,
  Forall (fun row => length row = 5) rows ->
  Exists bad_field rows -> raises (decode_rows rows pose_local).
Proof.
  induction rows as [|row rows IH]; intros pose_local Hl Hb.
  - by apply Exists_nil in Hb.
  - apply Forall_cons in Hl as [Hl Hls]. simpl.
    destruct (decode_row row) as [[marker_id inverse]|e] eqn:E; simpl.
    + apply Exists_cons in Hb as [Hb|Hb]; [|by apply IH].
      destruct (decode_row_bad row Hl Hb) as [e He]. congruence.
    + by exists e.
Qed.

Lemma bad_count_raises self message :
  bad_count message -> raises (process_raw_pose self message).
Proof.
  unfold bad_count, process_raw_pose, char_at, raises.
  destruct (message !! 1) as [c|]; simpl; [|by eexists].
  intros ->. simpl. by eexists.
Qed.

Lemma bad_number_raises self message :
  bad_number message -> raises (process_raw_pose self message).
Proof.
  intros (c & n & rows & Hc & Hn & Hl & Hr & Hb).
  unfold process_raw_pose, char_at. rewrite Hc. simpl. rewrite Hn. simpl.
  rewrite decide_False by (intros ?; done). rewrite Hr. simpl.
  destruct (decode_rows_bad rows ∅) as [e He]; [|done|].
  - by apply reshape5_length in Hr.
  - rewrite He. simpl. by exists e.
Qed.

Lemma bad_length_skipped self message :
  bad_length message -> process_raw_pose self message = Return [LogBadLength message].
Proof.
  intros (c & n & Hc & Hn & Hl).
  unfold process_raw_pose, char_at. rewrite Hc. simpl. rewrite Hn. simpl.
  by rewrite decide_True.
Qed.

(** ** The read loop *)

Lemma process_candidates_skipped self messages :
  Forall bad_length messages ->
  process_candidates self messages = (LogBadLength <$> messages, Return ()).
Proof.
  induction messages as [|m ms IH]; intros Hall; [done|].
  apply Forall_cons in Hall as [Hm Hms]. simpl.
  rewrite bad_length_skipped by done. by rewrite IH.
Qed.

Lemma process_candidates_raises self messages :
  Exists (fun m => raises (process_raw_pose self m)) messages ->
  exists evs e, process_candidates self messages = (evs, Raise e).
Proof.
  induction messages as [|m ms IH]; intros Hex.
  - by apply Exists_nil in Hex.
  - simpl. destruct (process_raw_pose self m) as [evs|e] eqn:E.
    + apply Exists_cons in Hex as [[e He]|Hex]; [congruence|].
      destruct (IH Hex) as (evs' & e & ->). by exists (evs ++ evs'), e.
    + by exists [], e.
Qed.

(** A pass in which a frame raises: the buffer is emptied and the loop is
    left, whatever the reads to come. *)
Lemma read_loop_raises self message_buffer chunk :
  Exists (fun m => raises (process_raw_pose self m))
    (payloads (message_buffer ++ chunk)) ->
  exists evs e, forall chunks,
    read_loop self message_buffer (chunk :: chunks)
    = (evs ++ [LogProcessingError e (message_buffer ++ chunk)], ([], Broke)).
Proof.
  intros Hex.
  destruct (process_candidates_raises self _ Hex) as (evs & e & He).
  exists evs, e. intros chunks. simpl. unfold process_buffer. by rewrite He.
Qed.

(** A pass in which every frame has a wrong number of fields: one line is
    logged per frame, the buffer keeps what follows the last [ETX], and the
    loop goes on. *)
Lemma read_loop_skipped self message_buffer chunk chunks :
  Forall bad_length (payloads (message_buffer ++ chunk)) ->
  read_loop self message_buffer (chunk :: chunks)
  = ((LogBadLength <$> payloads (message_buffer ++ chunk))
       ++ (read_loop self (remaining (message_buffer ++ chunk)) chunks).1,
     (read_loop self (remaining (message_buffer ++ chunk)) chunks).2).
Proof.
  intros Hall. simpl. unfold process_buffer.
  rewrite process_candidates_skipped by done. simpl.
  by destruct (read_loop self (remaining (message_buffer ++ chunk)) chunks).
Qed.

Lemma process_candidates_returns self messages :
  Forall (fun m => ~ raises (process_raw_pose self m)) messages ->
  exists evs, process_candidates self messages = (evs, Return ()).
Proof.
  induction messages as [|m ms IH]; intros Hall; [by exists []|].
  apply Forall_cons in Hall as [Hm Hms]. simpl.
  destruct (process_raw_pose self m) as [evs|e].
  - destruct (IH Hms) as [evs' ->]. by exists (evs ++ evs').
  - destruct Hm. by exists e.
Qed.

(** A pass in which no frame raises, whatever else the frames are: the
    buffer keeps what follows the last [ETX] and the loop goes on. *)
Lemma read_loop_continues self message_buffer chunk :
  Forall (fun m => ~ raises (process_raw_pose self m))
    (payloads (message_buffer ++ chunk)) ->
  exists evs, forall chunks,
    read_loop self message_buffer (chunk :: chunks)
    = (evs ++ (read_loop self (remaining (message_buffer ++ chunk)) chunks).1,
       (read_loop self (remaining (message_buffer ++ chunk)) chunks).2).
Proof.
  intros Hall. destruct (process_candidates_returns self _ Hall) as [evs He].
  exists evs. intros chunks. simpl. unfold process_buffer. rewrite He. simpl.
  by destruct (read_loop self (remaining (message_buffer ++ chunk)) chunks).
Qed.

Lemma bad_length_returns self message :
  bad_length message -> ~ raises (process_raw_pose self message).
Proof. intros Hb [e He]. by rewrite bad_length_skipped in He. Qed.

End DecoderProperties.

Section ResolverProperties.
Context `{PyNum}.

(** ** The coordinate resolver *)

Lemma resolve_items_spec marker_map items : forall global_poses unknown_ids,
  NoDup (py_str <$> items.*1) ->
  (forall k pose, (k, pose) ∈ items ->
     is_Some (marker_map !! py_str k) -> is_Some (linalg_inv pose)) ->
  exists global_poses' unknown_ids',
    resolve_items marker_map items global_poses unknown_ids
    = Return (global_poses', unknown_ids')
    /\ (forall id g,
          global_poses' !! id = Some g <->
          (exists k pose m q,
             (k, pose) ∈ items /\ py_str k = id /\ marker_map !! id = Some m
             /\ linalg_inv pose = Some q /\ g = dot m q)
          \/ ((forall k pose, (k, pose) ∈ items -> py_str k = id ->
                 marker_map !! id = None)
              /\ global_poses !! id = Some g))
    /\ (forall id,
          id ∈ unknown_ids' <->
          (exists k pose,
             (k, pose) ∈ items /\ py_str k = id /\ marker_map !! id = None)
          \/ id ∈ unknown_ids).
Proof.
  induction items as [|[k0 pose0] items IH]; intros gp unk Hnd Hinv.
  - exists gp, unk. split; [done|]. split.
    + intros id g. split; [intros Hg; right; split; [|done] | ].
      * by intros k pose ?%elem_of_nil.
      * intros [(k & pose & m & q & []%elem_of_nil & _)|[_ Hg]]. done.
    + intros id. split; [by right|].
      by intros [(k & pose & []%elem_of_nil & _)|Hid].
  - simpl in Hnd. apply NoDup_cons in Hnd as [Hfresh Hnd].
    assert (forall k pose, (k, pose) ∈ items -> py_str k <> py_str k0) as Hne.
    { intros k pose Hin E. apply Hfresh. rewrite <- E.
      apply list_elem_of_fmap. exists k. split; [done|].
      apply list_elem_of_fmap. by exists (k, pose). }
    assert (forall k pose, (k, pose) ∈ items ->
              is_Some (marker_map !! py_str k) -> is_Some (linalg_inv pose))
      as Hinv' by (intros k pose Hin; apply Hinv; by right).
    simpl. destruct (marker_map !! py_str k0) as [m0|] eqn:Em.
    + destruct (Hinv k0 pose0) as [q0 Hq0]; [by left | by rewrite Em |].
      rewrite Hq0. simpl.
      destruct (IH (<[py_str k0 := dot m0 q0]> gp) unk Hnd Hinv')
        as (gp' & unk' & -> & Hgp & Hunk).
      exists gp', unk'. split; [done|]. split.
      * intros id g. rewrite Hgp. split.
        -- intros [(k & pose & m & q & Hin & Hk & Hm & Hq & ->)|[Hno Hg]].
           ++ left. exists k, pose, m, q. repeat split; try done. by right.
           ++ destruct (decide (py_str k0 = id)) as [<-|Hid].
              ** rewrite lookup_insert_eq in Hg. injection Hg as <-.
                 left. exists k0, pose0, m0, q0. repeat split; try done. by left.
              ** rewrite lookup_insert_ne in Hg by done. right. split; [|done].
                 intros k pose [[= -> ->]|Hin]%elem_of_cons; [done|].
                 by apply (Hno k pose).
        -- intros [(k & pose & m & q & Hin & Hk & Hm & Hq & ->)|[Hno Hg]].
           ++ apply elem_of_cons in Hin as [[= -> ->]|Hin].
              ** right. subst id. split.
                 --- intros k pose Hin E. by destruct (Hne k pose Hin).
                 --- rewrite lookup_insert_eq. congruence.
              ** left. by exists k, pose, m, q.
           ++ right. split.
              ** intros k pose Hin. apply (Hno k pose). by right.
              ** rewrite lookup_insert_ne; [done|]. intros <-.
                 specialize (Hno k0 pose0). rewrite Em in Hno.
                 by discriminate Hno; [left|].
      * intros id. rewrite Hunk. split.
        -- intros [(k & pose & Hin & Hk & Hm)|Hid]; [left|by right].
           exists k, pose. repeat split; try done. by right.
        -- intros [(k & pose & Hin & Hk & Hm)|Hid]; [|by right].
           apply elem_of_cons in Hin as [[= -> ->]|Hin]; [congruence|].
           left. by exists k, pose.
    + destruct (IH gp ({[py_str k0]} ∪ unk) Hnd Hinv')
        as (gp' & unk' & -> & Hgp & Hunk).
      exists gp', unk'. split; [done|]. split.
      * intros id g. rewrite Hgp. split.
        -- intros [(k & pose & m & q & Hin & Hk & Hm & Hq & ->)|[Hno Hg]].
           ++ left. exists k, pose, m, q. repeat split; try done. by right.
           ++ right. split; [|done].
              intros k pose [[= -> ->]|Hin]%elem_of_cons; [congruence|].
              by apply (Hno k pose).
        -- intros [(k & pose & m & q & Hin & Hk & Hm & Hq & ->)|[Hno Hg]].
           ++ apply elem_of_cons in Hin as [[= -> ->]|Hin]; [congruence|].
              left. by exists k, pose, m, q.
           ++ right. split; [|done]. intros k pose Hin. apply (Hno k pose). by right.
      * intros id. rewrite Hunk, elem_of_union, elem_of_singleton. split.
        -- intros [(k & pose & Hin & Hk & Hm)|[->|Hid]].
           ++ left. exists k, pose. repeat split; try done. by right.
           ++ left. exists k0, pose0. repeat split; try done. by left.
           ++ by right.
        -- intros [(k & pose & Hin & Hk & Hm)|Hid]; [|by right; right].
           apply elem_of_cons in Hin as [[= -> ->]|Hin].
           ++ right. by left.
           ++ left. by exists k, pose.
Qed.

End ResolverProperties.

(** ** Exact arithmetic *)

Module ExactFacts.
Import Exact.
Local Open Scope R_scope.

Lemma fourdof_matrix x y z yaw :
  fourdof_to_matrix [x; y; z] yaw
  = [ [cos yaw; - sin yaw; 0; x];
      [sin yaw;   cos yaw; 0; y];
      [0; 0; 1; z];
      [0; 0; 0; 1] ].
Proof. reflexivity. Qed.

Lemma det_fourdof x y z yaw : det 4 (fourdof_to_matrix [x; y; z] yaw) = 1.
Proof.
  rewrite fourdof_matrix.
  cbv [det minor rsum alternate entry seq fmap list_fmap foldr Nat.even
       delete list_delete lookup list_lookup default mbind option_bind
       Datatypes.id from_option].
  pose proof (sin2_cos2 yaw) as Hsc. unfold Rsqr in Hsc.
  transitivity (sin yaw * sin yaw + cos yaw * cos yaw); [ring | exact Hsc].
Qed.

(** A rotation about z with a translation has an inverse. *)
Lemma fourdof_invertible x y z yaw :
  is_Some (inverse (fourdof_to_matrix [x; y; z] yaw)).
Proof.
  unfold inverse. change (length (fourdof_to_matrix [x; y; z] yaw)) with 4%nat.
  rewrite det_fourdof. destruct (Req_EM_T 1 0) as [E|E]; [lra | by eexists].
Qed.

(** The inverse in closed form: the transposed rotation, and the
    translation turned back and negated. *)
Lemma inverse_fourdof x y z yaw :
  inverse (fourdof_to_matrix [x; y; z] yaw)
  = Some [ [cos yaw; sin yaw; 0; - (cos yaw * x + sin yaw * y)];
           [- sin yaw; cos yaw; 0; sin yaw * x - cos yaw * y];
           [0; 0; 1; - z];
           [0; 0; 0; 1] ].
Proof.
  unfold inverse. change (length (fourdof_to_matrix [x; y; z] yaw)) with 4%nat.
  rewrite det_fourdof. destruct (Req_EM_T 1 0) as [E|_]; [lra|].
  rewrite fourdof_matrix.
  pose proof (sin2_cos2 yaw) as Hsc. unfold Rsqr in Hsc.
  cbv [det minor rsum alternate entry seq fmap list_fmap foldr Nat.even
       delete list_delete lookup list_lookup default mbind option_bind
       Datatypes.id from_option Nat.add Nat.sub].
  repeat (f_equal; try nra).
  transitivity (- (z * (sin yaw * sin yaw + cos yaw * cos yaw)));
    [field | rewrite Hsc; ring].
Qed.

End ExactFacts.

Section DecoderClaims.
Context `{PyNum}.

(** A frame whose rows decode, with no global callback. *)
Lemma process_raw_pose_rows self message c marker_count rows pose_local :
  message !! 1 = Some c -> py_int [c] = Some marker_count ->
  Z.of_nat (length (split DELIM (drop 2 message))) = (marker_count * 5)%Z ->
  reshape5 (split DELIM (drop 2 message)) = Some rows ->
  decode_rows rows ∅ = Return pose_local ->
  _callback_global self = false ->
  process_raw_pose self message
  = Return (if _callback_local self then [CallbackLocal pose_local] else []).
Proof.
  intros Hc Hn Hl Hr Hd Hg. unfold process_raw_pose, char_at.
  rewrite Hc. simpl. rewrite Hn. simpl.
  rewrite decide_False by (intros ?; done).
  rewrite Hr. simpl. rewrite Hd. simpl. by rewrite Hg.
Qed.

(** A frame of one marker. *)
Lemma process_raw_pose_single self tag count id yaw x y z
    marker_id degrees cx cy cz inverse :
  py_int [count] = Some 1%Z ->
  Forall (fun f => (DELIM ∉ f) /\ np_item f = f) [id; yaw; x; y; z] ->
  py_int id = Some marker_id ->
  py_float yaw = Some degrees ->
  py_float x = Some cx -> py_float y = Some cy -> py_float z = Some cz ->
  linalg_inv
    (fourdof_to_matrix [fmul cx centi; fmul cy centi; fneg (fmul cz centi)]
       (fneg (radians degrees))) = Some inverse ->
  _callback_global self = false ->
  process_raw_pose self (tag :: count :: join DELIM [id; yaw; x; y; z])
  = Return (if _callback_local self
            then [CallbackLocal {[marker_id := inverse]}] else []).
Proof.
  intros Hcount Hclean Hid Hyaw Hx Hy Hz Hinv Hg.
  assert (split DELIM (join DELIM [id; yaw; x; y; z]) = [id; yaw; x; y; z])
    as Hsplit.
  { apply split_join; [done|]. eapply Forall_impl; [exact Hclean|]. by intros f [? ?]. }
  assert (np_item <$> [id; yaw; x; y; z] = [id; yaw; x; y; z]) as Hitems.
  { rewrite <- (list_fmap_id [id; yaw; x; y; z]) at 2.
    apply Forall_fmap_ext_1. eapply Forall_impl; [exact Hclean|]. by intros f [? ?]. }
  apply (process_raw_pose_rows self _ count 1%Z [[id; yaw; x; y; z]]); try done.
  - change (drop 2 (tag :: count :: ?s)) with s. by rewrite Hsplit.
  - change (drop 2 (tag :: count :: ?s)) with s. rewrite Hsplit.
    change (reshape5 [id; yaw; x; y; z])
      with (Some [np_item <$> [id; yaw; x; y; z]]). by rewrite Hitems.
  - simpl. rewrite (decode_row_ok id yaw x y z marker_id degrees cx cy cz inverse)
      by done. simpl. by rewrite insert_empty.
Qed.

(** A pass over one frame that does not raise. *)
Lemma read_loop_single self chunk message evs :
  payloads chunk = [message] ->
  process_raw_pose self message = Return evs ->
  _read self [chunk] = (evs, (remaining chunk, Stopped)).
Proof.
  intros Hp Hm. unfold _read. simpl. unfold process_buffer. rewrite Hp.
  simpl. rewrite Hm. simpl. by rewrite !app_nil_r.
Qed.

(** C5: for every 5-tuple of fields that convert, the loop body stores
    under the marker id the inverse of [rotation_matrix] about z by the
    negated radians of the yaw field, with the translation column set to
    the x and y fields times [.01] and the negated z field times [.01];
    a frame of this one marker delivers exactly that dictionary. *)
Theorem stored_transform id yaw x y z marker_id degrees cx cy cz inverse :
  py_int id = Some marker_id ->
  py_float yaw = Some degrees ->
  py_float x = Some cx -> py_float y = Some cy -> py_float z = Some cz ->
  linalg_inv
    (set_translation (rotation_matrix_z (fneg (radians degrees)))
       [fmul cx centi; fmul cy centi; fneg (fmul cz centi)]) = Some inverse ->
  (forall rows pose_local,
     decode_rows ([id; yaw; x; y; z] :: rows) pose_local
     = decode_rows rows (<[marker_id := inverse]> pose_local))
  /\ (forall self tag count,
        py_int [count] = Some 1%Z ->
        Forall (fun f => (DELIM ∉ f) /\ np_item f = f) [id; yaw; x; y; z] ->
        _callback_global self = false -> _callback_local self = true ->
        process_raw_pose self (tag :: count :: join DELIM [id; yaw; x; y; z])
        = Return [CallbackLocal {[marker_id := inverse]}]).
Proof.
  intros Hid Hyaw Hx Hy Hz Hinv. split.
  - intros rows pose_local. simpl.
    by rewrite (decode_row_ok id yaw x y z marker_id degrees cx cy cz inverse).
  - intros self tag count Hcount Hclean Hg Hl.
    rewrite (process_raw_pose_single self tag count id yaw x y z
               marker_id degrees cx cy cz inverse) by done.
    by rewrite Hl.
Qed.

(** C4, amended: a frame whose number of fields is not five times its
    count is logged and skipped, with no exception, no partial decode and
    no callback, and the pass goes on with the next frame.  Such a frame
    does not reset the buffer: after a pass of such frames, and after any
    pass in which every frame is such a frame or does not raise, the buffer
    holds what follows the last [ETX] and the loop goes on; a frame of the
    pass that raises still empties the buffer and ends the loop. *)
Theorem wrong_field_count self :
  (forall message,
     bad_length message ->
     process_raw_pose self message = Return [LogBadLength message])
  /\ (forall message messages,
        bad_length message ->
        process_candidates self (message :: messages)
        = (LogBadLength message :: (process_candidates self messages).1,
           (process_candidates self messages).2))
  /\ (forall message_buffer chunk chunks,
        Forall bad_length (payloads (message_buffer ++ chunk)) ->
        read_loop self message_buffer (chunk :: chunks)
        = ((LogBadLength <$> payloads (message_buffer ++ chunk))
             ++ (read_loop self (remaining (message_buffer ++ chunk)) chunks).1,
           (read_loop self (remaining (message_buffer ++ chunk)) chunks).2))
  /\ (forall message_buffer chunk,
        Forall (fun m => bad_length m \/ ~ raises (process_raw_pose self m))
          (payloads (message_buffer ++ chunk)) ->
        exists evs, forall chunks,
          read_loop self message_buffer (chunk :: chunks)
          = (evs
               ++ (read_loop self (remaining (message_buffer ++ chunk)) chunks).1,
             (read_loop self (remaining (message_buffer ++ chunk)) chunks).2))
  /\ (forall message_buffer chunk,
        Exists (fun m => raises (process_raw_pose self m))
          (payloads (message_buffer ++ chunk)) ->
        exists evs e, forall chunks,
          read_loop self message_buffer (chunk :: chunks)
          = (evs ++ [LogProcessingError e (message_buffer ++ chunk)],
             ([], Broke))).
Proof.
  split; [|split; [|split; [|split]]].
  - intros message. apply bad_length_skipped.
  - intros message messages Hb. cbn [process_candidates].
    rewrite (bad_length_skipped self message Hb).
    by destruct (process_candidates self messages).
  - intros message_buffer chunk chunks. apply read_loop_skipped.
  - intros message_buffer chunk Hall. apply read_loop_continues.
    eapply Forall_impl; [exact Hall|].
    intros m [Hb|Hr]; [by apply bad_length_returns | exact Hr].
  - intros message_buffer chunk. apply read_loop_raises.
Qed.

(** C10, amended: a frame whose count character is missing or is no
    integer, or whose count matches the number of fields while a marker id
    or a float field does not convert, raises; the read loop then logs,
    empties the buffer and is left, whatever the reads to come.  A frame
    whose number of fields is not five times its count is logged and skipped
    without an exception, whether its fields convert or not; when every
    frame of a pass is such a frame or does not raise, the buffer keeps what
    follows the last [ETX] and the loop goes on. *)
Theorem decoder_errors_asymmetric self :
  (forall message,
     bad_count message \/ bad_number message ->
     raises (process_raw_pose self message))
  /\ (forall message_buffer chunk,
        Exists (fun m => bad_count m \/ bad_number m)
          (payloads (message_buffer ++ chunk)) ->
        exists evs e, forall chunks,
          read_loop self message_buffer (chunk :: chunks)
          = (evs ++ [LogProcessingError e (message_buffer ++ chunk)],
             ([], Broke)))
  /\ (forall message,
        bad_length message ->
        process_raw_pose self message = Return [LogBadLength message])
  /\ (forall message_buffer chunk chunks,
        Forall bad_length (payloads (message_buffer ++ chunk)) ->
        read_loop self message_buffer (chunk :: chunks)
        = ((LogBadLength <$> payloads (message_buffer ++ chunk))
             ++ (read_loop self (remaining (message_buffer ++ chunk)) chunks).1,
           (read_loop self (remaining (message_buffer ++ chunk)) chunks).2))
  /\ (forall message_buffer chunk,
        Forall (fun m => bad_length m \/ ~ raises (process_raw_pose self m))
          (payloads (message_buffer ++ chunk)) ->
        exists evs, forall chunks,
          read_loop self message_buffer (chunk :: chunks)
          = (evs
               ++ (read_loop self (remaining (message_buffer ++ chunk)) chunks).1,
             (read_loop self (remaining (message_buffer ++ chunk)) chunks).2)).
Proof.
  assert (forall message, bad_count message \/ bad_number message ->
            raises (process_raw_pose self message)) as Hraise.
  { intros message [Hb|Hb];
      [by apply bad_count_raises | by apply bad_number_raises]. }
  split; [exact Hraise|]. split; [|split; [|split]].
  - intros message_buffer chunk Hex. apply read_loop_raises.
    eapply Exists_impl; [exact Hex|]. exact Hraise.
  - intros message. apply bad_length_skipped.
  - intros message_buffer chunk chunks. apply read_loop_skipped.
  - intros message_buffer chunk Hall. apply read_loop_continues.
    eapply Forall_impl; [exact Hall|].
    intros m [Hb|Hr]; [by apply bad_length_returns | exact Hr].
Qed.

(** C6: when the observed ids are distinct once normalised and the
    observations found in the map have an inverse, [local_to_global]
    returns; [global_poses] holds exactly the observed ids present in the
    map, each with [dot] of the map's transform and the inverse of the
    observation; [unknown_ids] holds exactly the observed ids absent from
    the map.  With a map of "148" alone and observations for "148" and
    "999", the result is the one entry "148" and the set of "999". *)
Theorem local_to_global_resolves :
  (forall marker_map local_poses,
     NoDup (py_str <$> local_poses.*1) ->
     (forall k pose, (k, pose) ∈ local_poses ->
        is_Some (marker_map !! py_str k) -> is_Some (linalg_inv pose)) ->
     exists global_poses unknown_ids,
       local_to_global marker_map local_poses
       = Return (global_poses, unknown_ids)
       /\ (forall id g,
             global_poses !! id = Some g <->
             exists k pose m q,
               (k, pose) ∈ local_poses /\ py_str k = id
               /\ marker_map !! id = Some m
               /\ linalg_inv pose = Some q /\ g = dot m q)
       /\ (forall id,
             id ∈ unknown_ids <->
             exists k pose,
               (k, pose) ∈ local_poses /\ py_str k = id
               /\ marker_map !! id = None))
  /\ (forall marker_to_map k148 pose148 inverse148 k999 pose999,
        py_str k148 = lit "148" -> py_str k999 = lit "999" ->
        linalg_inv pose148 = Some inverse148 ->
        local_to_global {[lit "148" := marker_to_map]}
          [(k148, pose148); (k999, pose999)]
        = Return ({[lit "148" := dot marker_to_map inverse148]},
                  {[lit "999"]})).
Proof.
  split.
  - intros marker_map local_poses Hnd Hinv.
    destruct (resolve_items_spec marker_map local_poses ∅ ∅ Hnd Hinv)
      as (gp & unk & Hr & Hgp & Hunk).
    exists gp, unk. split; [exact Hr|]. split.
    + intros id g. rewrite Hgp. split.
      * intros [Hin|[_ Hg]]; [done|]. by rewrite lookup_empty in Hg.
      * intros Hin. by left.
    + intros id. rewrite Hunk. split.
      * intros [Hin|Hid]; [done|]. by apply not_elem_of_empty in Hid.
      * intros Hin. by left.
  - intros m k148 pose148 inverse148 k999 pose999 H148 H999 Hinv.
    unfold local_to_global. simpl. rewrite H148, H999.
    rewrite lookup_singleton_eq. rewrite Hinv. simpl.
    rewrite lookup_singleton_ne by done.
    by rewrite insert_empty, (right_id_L ∅ (∪)).
Qed.

End DecoderClaims.

(** ** The claims on concrete frames *)

Local Ltac absent := let H := fresh in intros H; by apply (bool_decide_pack _) in H.

(** C1, as stated, fails: after the count character the payload holds six
    fields, the first of them empty, where one marker takes five; the frame
    is logged and dropped and no observation is delivered. *)
Lemma pose_report_counterexample :
  split DELIM (drop 2 (lit "^1|148|-175.91|+98.74|+7.10|182.39"))
  = [[]; lit "148"; lit "-175.91"; lit "+98.74"; lit "+7.10"; lit "182.39"]
  /\ _read (__init__ ∅ true true)
       [lit "~^1|148|-175.91|+98.74|+7.10|182.39`"]
     = ([LogBadLength (lit "^1|148|-175.91|+98.74|+7.10|182.39")],
        ([], Stopped)).
Proof. split; reflexivity. Qed.

(** C1, amended: with the count character directly followed by the marker
    id, and the yaw field before the three lengths, the payload
    "^1148|182.39|-175.91|+98.74|+7.10" (between [STX] and [ETX]) yields
    exactly one observation, for marker id 148: the inverse of the transform
    of yaw [-radians(float("182.39"))] and translation
    [x = float("-175.91") * .01], [y = float("+98.74") * .01],
    [z = -(float("+7.10") * .01)], each in the arithmetic of the decoder,
    whatever its rounding. *)
Theorem pose_report_decoded `{PyNum} self degrees cx cy cz inverse :
  py_int (lit "1") = Some 1%Z ->
  py_int (lit "148") = Some 148%Z ->
  py_float (lit "182.39") = Some degrees ->
  py_float (lit "-175.91") = Some cx ->
  py_float (lit "+98.74") = Some cy ->
  py_float (lit "+7.10") = Some cz ->
  linalg_inv
    (fourdof_to_matrix [fmul cx centi; fmul cy centi; fneg (fmul cz centi)]
       (fneg (radians degrees))) = Some inverse ->
  _callback_global self = false -> _callback_local self = true ->
  _read self [lit "~^1148|182.39|-175.91|+98.74|+7.10`"]
  = ([CallbackLocal {[148%Z := inverse]}], ([], Stopped)).
Proof.
  intros Hcount Hid Hyaw Hx Hy Hz Hinv Hg Hl.
  rewrite (read_loop_single self
             (lit "~^1148|182.39|-175.91|+98.74|+7.10`")
             (lit "^1148|182.39|-175.91|+98.74|+7.10")
             [CallbackLocal {[148%Z := inverse]}]);
    [reflexivity | reflexivity |].
  pose proof (process_raw_pose_single self "^"%char "1"%char
                (lit "148") (lit "182.39") (lit "-175.91") (lit "+98.74")
                (lit "+7.10") 148%Z degrees cx cy cz inverse
                Hcount) as Hp.
  rewrite Hl in Hp. apply Hp; try done.
  repeat constructor; absent.
Qed.

Lemma pose_report_decoded_witness :
  exists inverse,
    _read (__init__ (H := Exact.real) ∅ false true)
      [lit "~^1148|182.39|-175.91|+98.74|+7.10`"]
    = ([CallbackLocal {[148%Z := inverse]}], ([], Stopped)).
Proof.
  destruct (ExactFacts.fourdof_invertible
              (-175.91 * (1 / 100))%R (98.74 * (1 / 100))%R
              (- (7.10 * (1 / 100)))%R (- (182.39 * (PI / 180)))%R)
    as [inverse Hinv].
  exists inverse.
  exact (pose_report_decoded (H := Exact.real) (__init__ ∅ false true)
           182.39%R (-175.91)%R 98.74%R 7.10%R inverse
           eq_refl eq_refl eq_refl eq_refl eq_refl eq_refl Hinv
           eq_refl eq_refl).
Defined.

Lemma stored_transform_witness :
  exists inverse,
    linalg_inv
      (fourdof_to_matrix
         [(-175.91 * (1 / 100))%R; (98.74 * (1 / 100))%R;
          (- (7.10 * (1 / 100)))%R]
         (- (182.39 * (PI / 180)))%R) = Some inverse
    /\ decode_rows
         [[lit "148"; lit "182.39"; lit "-175.91"; lit "+98.74"; lit "+7.10"]]
         ∅
       = Return {[148%Z := inverse]}
    /\ process_raw_pose (__init__ ∅ false true)
         (lit "^1148|182.39|-175.91|+98.74|+7.10")
       = Return [CallbackLocal {[148%Z := inverse]}].
Proof.
  destruct (ExactFacts.fourdof_invertible
              (-175.91 * (1 / 100))%R (98.74 * (1 / 100))%R
              (- (7.10 * (1 / 100)))%R (- (182.39 * (PI / 180)))%R)
    as [inverse Hinv].
  exists inverse. split; [exact Hinv|].
  destruct (stored_transform (H := Exact.real)
              (lit "148") (lit "182.39") (lit "-175.91") (lit "+98.74")
              (lit "+7.10")
              148%Z 182.39%R (-175.91)%R 98.74%R 7.10%R inverse
              eq_refl eq_refl eq_refl eq_refl eq_refl Hinv) as [Hrow Hframe].
  split.
  - rewrite Hrow. simpl. by rewrite insert_empty.
  - apply (Hframe (__init__ ∅ false true) "^"%char "1"%char);
      [reflexivity | repeat constructor; absent | reflexivity | reflexivity].
Defined.

(** C4, as stated, fails: count 2 with six fields raises nothing, and the
    buffer is not reset: it keeps what follows the last [ETX] and the loop
    goes on to the next read. *)
Lemma wrong_field_count_counterexample :
  process_raw_pose (__init__ ∅ true true) (lit "^2a|b|c|d|e|f")
  = Return [LogBadLength (lit "^2a|b|c|d|e|f")]
  /\ _read (__init__ ∅ true true) [lit "~^2a|b|c|d|e|f`~^1"; lit "14"]
     = ([LogBadLength (lit "^2a|b|c|d|e|f")], (lit "~^114", Stopped)).
Proof. split; reflexivity. Qed.

Lemma bad_length_example : bad_length (lit "^2a|b|c|d|e|f").
Proof. exists "2"%char, 2%Z. repeat split. simpl. lia. Qed.

Lemma wrong_field_count_witness :
  process_raw_pose (__init__ ∅ true true) (lit "^2a|b|c|d|e|f")
  = Return [LogBadLength (lit "^2a|b|c|d|e|f")]
  /\ read_loop (__init__ ∅ true true) [] [lit "~^2a|b|c|d|e|f`~^1"; lit "14"]
     = ([LogBadLength (lit "^2a|b|c|d|e|f")], (lit "~^114", Stopped)).
Proof.
  destruct (wrong_field_count (__init__ ∅ true true))
    as (Hskip & _ & Hloop & _).
  split.
  - apply Hskip. exact bad_length_example.
  - rewrite Hloop; [reflexivity|].
    change (payloads ([] ++ lit "~^2a|b|c|d|e|f`~^1"))
      with [lit "^2a|b|c|d|e|f"].
    constructor; [exact bad_length_example | constructor].
Defined.

Lemma bad_number_example : bad_number (lit "^1148|abc|1|2|3").
Proof.
  exists "1"%char, 1%Z, [[lit "148"; lit "abc"; lit "1"; lit "2"; lit "3"]].
  repeat split. apply Exists_cons_hd. by exists 1%nat, (lit "abc").
Qed.

(** C10, as stated, fails on both sides.  A marker id that is no number
    raises nothing when the number of fields is wrong: the frame is logged
    and skipped.  And a frame whose number of fields is wrong does not keep
    the buffer and the loop when a later frame of the same pass raises. *)
Lemma decoder_errors_asymmetric_counterexample :
  process_raw_pose (__init__ ∅ true true) (lit "^1x|1|2|3")
  = Return [LogBadLength (lit "^1x|1|2|3")]
  /\ _read (__init__ ∅ true true) [lit "~^0`~^x`rest"; lit "~^1"]
     = ([LogBadLength (lit "^0");
         LogProcessingError ValueError (lit "~^0`~^x`rest")],
        ([], Broke)).
Proof. split; reflexivity. Qed.

Lemma decoder_errors_asymmetric_witness :
  raises (process_raw_pose (__init__ ∅ true true) (lit "^x148|1|2|3|4"))
  /\ raises (process_raw_pose (__init__ ∅ true true) (lit "^1148|abc|1|2|3"))
  /\ (exists evs e, forall chunks,
        read_loop (__init__ ∅ true true) []
          (lit "~^1148|abc|1|2|3`~^" :: chunks)
        = (evs ++ [LogProcessingError e ([] ++ lit "~^1148|abc|1|2|3`~^")],
           ([], Broke)))
  /\ process_raw_pose (__init__ ∅ true true) (lit "^2a|b|c|d|e|f")
     = Return [LogBadLength (lit "^2a|b|c|d|e|f")]
  /\ read_loop (__init__ ∅ true true) [] [lit "~^2a|b|c|d|e|f`~^1"; lit "14"]
     = ([LogBadLength (lit "^2a|b|c|d|e|f")], (lit "~^114", Stopped)).
Proof.
  destruct (decoder_errors_asymmetric (__init__ ∅ true true))
    as (Hraise & Hbreak & Hskip & Hloop & _).
  split; [|split; [|split; [|split]]].
  - apply Hraise. left. reflexivity.
  - apply Hraise. right. exact bad_number_example.
  - apply Hbreak.
    change (payloads ([] ++ lit "~^1148|abc|1|2|3`~^"))
      with [lit "^1148|abc|1|2|3"].
    apply Exists_cons_hd. right. exact bad_number_example.
  - apply Hskip. exact bad_length_example.
  - rewrite Hloop; [reflexivity|].
    change (payloads ([] ++ lit "~^2a|b|c|d|e|f`~^1"))
      with [lit "^2a|b|c|d|e|f"].
    constructor; [exact bad_length_example | constructor].
Defined.

Lemma local_to_global_resolves_witness :
  exists inverse,
    linalg_inv (fourdof_to_matrix [1%R; 2%R; 3%R] 0%R) = Some inverse
    /\ local_to_global {[lit "148" := Exact.identity]}
         [(IntId 148, fourdof_to_matrix [1%R; 2%R; 3%R] 0%R);
          (StrId (lit "999"), fourdof_to_matrix [4%R; 5%R; 6%R] 0%R)]
       = Return ({[lit "148" := dot Exact.identity inverse]}, {[lit "999"]})
    /\ exists global_poses unknown_ids,
         local_to_global {[lit "148" := Exact.identity]}
           [(IntId 148, fourdof_to_matrix [1%R; 2%R; 3%R] 0%R);
            (StrId (lit "999"), fourdof_to_matrix [4%R; 5%R; 6%R] 0%R)]
         = Return (global_poses, unknown_ids)
         /\ global_poses !! lit "148" = Some (dot Exact.identity inverse)
         /\ lit "999" ∈ unknown_ids.
Proof.
  destruct (ExactFacts.fourdof_invertible 1%R 2%R 3%R 0%R) as [inverse Hinv].
  exists inverse. split; [exact Hinv|].
  destruct (@local_to_global_resolves Exact.real) as [Hgen Hex].
  split.
  - by apply Hex.
  - destruct (Hgen {[lit "148" := Exact.identity]}
                [(IntId 148, fourdof_to_matrix (H := Exact.real) [1%R; 2%R; 3%R] 0%R);
                 (StrId (lit "999"), fourdof_to_matrix (H := Exact.real) [4%R; 5%R; 6%R] 0%R)])
      as (gp & unk & Hr & Hgp & Hunk).
    + change (NoDup [lit "148"; lit "999"]).
      repeat constructor; absent.
    + intros k pose [[= -> ->]|[[= -> ->]|[]%elem_of_nil]%elem_of_cons]%elem_of_cons _;
        apply ExactFacts.fourdof_invertible.
    + exists gp, unk. split; [exact Hr|]. split.
      * apply Hgp.
        exists (IntId 148), (fourdof_to_matrix (H := Exact.real) [1%R; 2%R; 3%R] 0%R),
          Exact.identity, inverse.
        repeat split; [by left | exact Hinv].
      * apply Hunk.
        exists (StrId (lit "999")), (fourdof_to_matrix (H := Exact.real) [4%R; 5%R; 6%R] 0%R).
        repeat split. by right; left.
Defined.

(** ** The command channel *)

(** The test of the [while] loop holds when the expected frame is not a
    suffix of what was read, whatever comes before it. *)
Lemma last_chars_suffix expected actual :
  expected <> [] ->
  last_chars (length expected) actual = expected <-> expected `suffix_of` actual.
Proof.
  intros Hne. unfold last_chars.
  destruct (length expected) as [|n] eqn:En.
  { by destruct expected. }
  rewrite <- En. split.
  - intros Hd. exists (take (length actual - length expected) actual).
    pose proof (take_drop (length actual - length expected) actual) as Htd.
    by rewrite Hd in Htd.
  - intros [noise ->]. rewrite length_app.
    replace (length noise + length expected - length expected)
      with (length noise) by lia.
    by rewrite drop_app_length.
Qed.

Lemma response_frame_nonempty args : response_frame args <> [].
Proof. done. Qed.

Lemma await_response_matched command_str expected incoming : forall actual k,
  expected <> [] ->
  Forall (fun c => c <> []) (take k incoming) ->
  expected `suffix_of` (actual ++ concat (take k incoming)) ->
  (await_response command_str expected actual incoming).2 = Return ().
Proof.
  induction incoming as [|c incoming IH]; intros actual k Hne Hall Hsuf; simpl.
  - rewrite take_nil in Hsuf. simpl in Hsuf. rewrite app_nil_r in Hsuf.
    apply last_chars_suffix in Hsuf; [|done]. by rewrite decide_True.
  - case_decide as Hm; [done|].
    destruct k as [|k].
    { simpl in Hsuf. rewrite app_nil_r in Hsuf.
      apply last_chars_suffix in Hsuf; done. }
    simpl in Hall, Hsuf. apply Forall_cons in Hall as [Hc Hall].
    rewrite decide_False by done.
    apply (IH (actual ++ c) k); [done | done |]. by rewrite <- app_assoc.
Qed.

Lemma await_response_raised command_str expected incoming : forall actual e,
  expected <> [] ->
  (await_response command_str expected actual incoming).2 = Raise e ->
  exists j,
    e = CommandError command_str (actual ++ concat (take j incoming)) expected
    /\ Forall (fun c => c <> []) (take j incoming)
    /\ default [] (incoming !! j) = []
    /\ forall i, i <= j ->
         ~ expected `suffix_of` (actual ++ concat (take i incoming)).
Proof.
  induction incoming as [|c incoming IH]; intros actual e Hne; simpl.
  - case_decide as Hm; [done|]. intros [= <-]. exists 0. simpl.
    rewrite app_nil_r. repeat split; [constructor|].
    intros i _. rewrite take_nil. simpl. rewrite app_nil_r.
    by rewrite <- last_chars_suffix.
  - case_decide as Hm; [done|]. case_decide as Hc.
    + intros [= <-]. exists 0. simpl. rewrite app_nil_r.
      repeat split; [constructor | done |].
      intros i Hi. replace i with 0 by lia. simpl. rewrite app_nil_r.
      by rewrite <- last_chars_suffix.
    + intros He. destruct (IH _ _ Hne He) as (j & -> & Hall & Hj & Hno).
      exists (S j). simpl. rewrite <- app_assoc. repeat split; try done.
      * by constructor.
      * intros [|i] Hi; simpl.
        -- rewrite app_nil_r. by rewrite <- last_chars_suffix.
        -- rewrite app_assoc. apply Hno. lia.
Qed.

Lemma await_response_returned command_str expected incoming : forall actual,
  expected <> [] ->
  (await_response command_str expected actual incoming).2 = Return () ->
  exists k,
    Forall (fun c => c <> []) (take k incoming)
    /\ expected `suffix_of` (actual ++ concat (take k incoming)).
Proof.
  induction incoming as [|c incoming IH]; intros actual Hne; simpl.
  - case_decide as Hm; [|done]. intros _. exists 0. simpl. rewrite app_nil_r.
    split; [constructor|]. by apply last_chars_suffix.
  - case_decide as Hm.
    + intros _. exists 0. simpl. rewrite app_nil_r.
      split; [constructor|]. by apply last_chars_suffix.
    + case_decide as Hc; [done|]. intros Hr.
      destruct (IH _ Hne Hr) as (k & Hall & Hsuf).
      exists (S k). simpl. split; [by constructor|]. by rewrite app_assoc.
Qed.

Lemma written_foldl conn s :
  written (foldl serial_write conn s) = written conn ++ s
  /\ incoming (foldl serial_write conn s) = incoming conn.
Proof.
  revert conn. induction s as [|c s IH]; intros conn; simpl.
  - by rewrite app_nil_r.
  - destruct (IH (serial_write conn c)) as [-> ->]. simpl.
    by rewrite <- app_assoc.
Qed.

(** [_send_command] in terms of the first read and the reads of the loop. *)
Lemma _send_command_unfold conn args :
  written (_send_command conn args).1 = written conn ++ command_frame args
  /\ (_send_command conn args).2
     = (await_response (command_frame args) (response_frame args)
          (default [] (head (incoming conn))) (tail (incoming conn))).2.
Proof.
  unfold _send_command. cbv zeta.
  destruct (written_foldl conn (command_frame args)) as [Hw Hi].
  remember (foldl serial_write conn (command_frame args)) as conn' eqn:E.
  clear E. unfold serial_read. rewrite Hi.
  destruct (incoming conn) as [|first later]; cbn [default head tail from_option Datatypes.id].
  - rewrite Hi.
    destruct (await_response (command_frame args) (response_frame args) [] []).
    split; [exact Hw | reflexivity].
  - cbn [incoming written].
    destruct (await_response (command_frame args) (response_frame args)
                first later).
    split; [exact Hw | reflexivity].
Qed.

(** C7, as stated, fails: the first read may return nothing and the
    command still succeed, when the acknowledgement arrives afterwards. *)
Lemma command_channel_counterexample :
  _send_command
    {| written := []; incoming := [[]; lit "~"; lit "!"; lit "A"; lit "`"] |}
    [lit "A"]
  = ({| written := lit "~#A`"; incoming := [] |}, Return ()).
Proof. reflexivity. Qed.

(** C7, amended: the command frame is written; the command succeeds
    exactly when, after the first read and some number of reads of the loop
    that all returned bytes, what was read ends with the expected
    acknowledgement, whatever precedes it; and when it fails, the exception
    carries the command sent and the bytes read up to the first read of the
    loop that returned nothing, no tail match having held until then.  An
    empty first read alone is no failure. *)
Theorem command_channel conn args :
  let expected := response_frame args in
  let first := default [] (head (incoming conn)) in
  let later := tail (incoming conn) in
  written (_send_command conn args).1 = written conn ++ command_frame args
  /\ ((_send_command conn args).2 = Return () <->
      exists k,
        Forall (fun c => c <> []) (take k later)
        /\ expected `suffix_of` (first ++ concat (take k later)))
  /\ (forall e,
        (_send_command conn args).2 = Raise e ->
        exists j,
          e = CommandError (command_frame args)
                (first ++ concat (take j later)) expected
          /\ Forall (fun c => c <> []) (take j later)
          /\ default [] (later !! j) = []
          /\ forall i, i <= j ->
               ~ expected `suffix_of` (first ++ concat (take i later))).
Proof.
  intros expected first later.
  destruct (_send_command_unfold conn args) as [Hw Hr].
  split; [exact Hw|]. rewrite Hr. split; [split|].
  - by apply await_response_returned.
  - intros (k & Hall & Hsuf). by apply (await_response_matched _ _ _ _ k).
  - intros e. by apply await_response_raised.
Qed.

Lemma command_channel_witness :
  (_send_command
     {| written := []; incoming := [lit "xyz~!Cal"; lit "c"; lit "Stop`"] |}
     [lit "CalcStop"]).2 = Return ()
  /\ exists j,
       (_send_command
          {| written := []; incoming := [lit "~!Calc"; lit "S"; []; lit "top`"] |}
          [lit "CalcStop"]).2
       = Raise (CommandError (lit "~#CalcStop`")
                  (lit "~!Calc" ++ concat (take j [lit "S"; []; lit "top`"]))
                  (lit "~!CalcStop`"))
       /\ default [] ([lit "S"; []; lit "top`"] !! j) = [].
Proof.
  split.
  - apply (command_channel
             {| written := [];
                incoming := [lit "xyz~!Cal"; lit "c"; lit "Stop`"] |}
             [lit "CalcStop"]).
    exists 2. split.
    + repeat constructor; done.
    + by exists (lit "xyz").
  - destruct (command_channel
                {| written := [];
                   incoming := [lit "~!Calc"; lit "S"; []; lit "top`"] |}
                [lit "CalcStop"]) as (_ & _ & Hfail).
    destruct (Hfail (CommandError (lit "~#CalcStop`") (lit "~!CalcS")
                       (lit "~!CalcStop`")) eq_refl)
      as (j & He & _ & Hj & _).
    exists j. split; [|exact Hj].
    transitivity (Raise (A := ()) (CommandError (lit "~#CalcStop`") (lit "~!CalcS")
                           (lit "~!CalcStop`"))); [reflexivity|].
    f_equal. exact He.
Defined.

(** ** Streaming and [set_parameter] *)

Section LifecycleProperties.
Context `{PyNum}.

(** [start_streaming] starts the read thread and leaves [_thread] at
    [None], the value [Thread.start] returns. *)
Lemma start_streaming_thread p p' :
  start_streaming p = (p', Return ()) ->
  threads p' = ReadThread :: threads p
  /\ is_streaming (driver p') = false
  /\ is_connected (driver p') = true.
Proof.
  unfold start_streaming.
  destruct (is_connected (driver p) && negb (is_streaming (driver p)));
    [|done].
  unfold send. destruct (connection (driver p)) as [conn|]; [|done].
  destruct (_send_command conn [lit "CalcStart"]) as [conn' [[]|e]]; [|done].
  by intros [= <-].
Qed.

(** With [_thread] at [None] the assertion of [set_parameter] holds and the
    command goes out. *)
Lemma set_parameter_sends p name value :
  is_connected (driver p) = true -> is_streaming (driver p) = false ->
  set_parameter p name value = send p [name; value]
  /\ port_output (set_parameter p name value).1
     = port_output p ++ command_frame [name; value].
Proof.
  intros Hc Hs. unfold set_parameter. rewrite Hc, Hs. simpl.
  split; [done|]. unfold send, port_output.
  unfold is_connected in Hc.
  destruct (connection (driver p)) as [conn|]; [|done].
  destruct (_send_command_unfold conn [name; value]) as [Hw _].
  by destruct (_send_command conn [name; value]).
Qed.

End LifecycleProperties.

(** C8 fails on the code: after [connect] and [start_streaming] the read
    thread runs, [is_streaming] is false all the same, and [set_parameter]
    passes its assertion and writes its command to the port. *)
Theorem set_parameter_while_streaming :
  exists p1 p2 p3,
    connect {| driver := __init__ (H := Exact.real) ∅ true true; threads := [] |}
      {| written := [];
         incoming := [lit "~!CalcStart`"; lit "~!MarkType|HLD1L`"] |}
    = (p1, Return ())
    /\ start_streaming p1 = (p2, Return ())
    /\ threads p2 = [ReadThread]
    /\ is_streaming (driver p2) = false
    /\ set_parameter p2 (lit "MarkType") (lit "HLD1L") = (p3, Return ())
    /\ port_output p3 = lit "~#CalcStart`" ++ lit "~#MarkType|HLD1L`".
Proof. do 3 eexists. repeat split; reflexivity. Qed.

(** * Further properties of the driver *)

(** ** The buffer between passes *)

Lemma remaining_no_etx s : ETX ∉ remaining s.
Proof.
  destruct (decide (ETX ∈ s)) as [Hin|Hin].
  - apply list_elem_of_split_r in Hin as (u & v & -> & Hv).
    by rewrite remaining_last.
  - by rewrite remaining_without.
Qed.

Lemma remaining_suffix s : remaining s `suffix_of` s.
Proof.
  destruct (decide (ETX ∈ s)) as [Hin|Hin].
  - apply list_elem_of_split_r in Hin as (u & v & -> & Hv).
    rewrite remaining_last by done. exists (u ++ [ETX]).
    by rewrite <- app_assoc.
  - rewrite remaining_without by done. by exists [].
Qed.

(** X1.  What a pass returns holds no [ETX], is the end of the buffer it was
    given, yields nothing when scanned again, and is left as it is by
    another pass. *)
Theorem remaining_settled s :
  (ETX ∉ remaining s)
  /\ remaining s `suffix_of` s
  /\ payloads (remaining s) = []
  /\ remaining (remaining s) = remaining s.
Proof.
  pose proof (remaining_no_etx s) as Hn.
  repeat split; [done | apply remaining_suffix | |].
  - by apply payloads_without.
  - by apply remaining_without.
Qed.

(** ** Where payloads come from *)

(** The consumed input that a state of the automaton stands for. *)
Lemma run_located s : forall st pre m,
  match st with
  | Scan.Idle => True
  | Scan.Armed => exists u, pre = u ++ [STX]
  | Scan.Open acc =>
      (exists u, pre = u ++ STX :: acc)
      /\ acc <> [] /\ (LF ∉ acc) /\ (ETX ∉ tail acc)
  end ->
  m ∈ (Scan.run st s).1 ->
  exists a u v,
    m = a ++ [ETX] /\ pre ++ s = u ++ STX :: a ++ ETX :: v
    /\ a <> [] /\ (LF ∉ a) /\ (ETX ∉ tail a).
Proof.
  induction s as [|c s IH]; intros st pre m Hst; simpl;
    [by intros ?%elem_of_nil|].
  replace (pre ++ c :: s) with ((pre ++ [c]) ++ s)
    by (by rewrite <- app_assoc).
  destruct st as [| |acc]; simpl.
  - specialize (IH (Scan.after (Some c)) (pre ++ [c]) m).
    destruct (Scan.run (Scan.after (Some c)) s). apply IH.
    unfold Scan.after. case_decide as Hc; [|done].
    injection Hc as ->. by exists pre.
  - destruct Hst as [u ->]. case_decide as Hc.
    + specialize (IH Scan.Idle ((u ++ [STX]) ++ [c]) m).
      destruct (Scan.run Scan.Idle s). by apply IH.
    + specialize (IH (Scan.Open [c]) ((u ++ [STX]) ++ [c]) m).
      destruct (Scan.run (Scan.Open [c]) s). apply IH.
      split; [exists u; by rewrite <- app_assoc|].
      split; [done|]. split.
      * intros ?%list_elem_of_singleton. congruence.
      * apply not_elem_of_nil.
  - destruct Hst as ([u ->] & Hne & Hlf & Hetx).
    destruct (decide (c = ETX)) as [->|Hc].
    + specialize (IH Scan.Idle ((u ++ STX :: acc) ++ [ETX]) m).
      destruct (Scan.run Scan.Idle s) as [out final]. simpl.
      intros [->|Hin]%elem_of_cons; [|by apply IH].
      exists acc, u, s. repeat split; try done.
      by rewrite <- ?app_assoc; simpl; rewrite <- ?app_assoc.
    + case_decide as Hl.
      * specialize (IH Scan.Idle ((u ++ STX :: acc) ++ [c]) m).
        destruct (Scan.run Scan.Idle s). by apply IH.
      * specialize (IH (Scan.Open (acc ++ [c])) ((u ++ STX :: acc) ++ [c]) m).
        destruct (Scan.run (Scan.Open (acc ++ [c])) s). apply IH.
        split; [exists u; by rewrite <- ?app_assoc; simpl; rewrite <- ?app_assoc|].
        split; [by destruct acc|]. split.
        -- rewrite elem_of_app, list_elem_of_singleton. intros [?|?]; congruence.
        -- destruct acc as [|a acc]; [done|]. simpl in *.
           rewrite elem_of_app, list_elem_of_singleton. intros [?|?]; congruence.
Qed.

(** X2.  Every payload stands in the buffer between a [STX] and an [ETX]; it
    holds no line feed, and no [ETX] after its first byte. *)
Theorem payloads_sound buf p :
  p ∈ payloads buf ->
  (exists u v, buf = u ++ STX :: p ++ ETX :: v)
  /\ p <> [] /\ (LF ∉ p) /\ (ETX ∉ tail p).
Proof.
  rewrite payloads_run. intros (m & -> & Hm)%list_elem_of_fmap.
  apply (run_located buf Scan.Idle []) in Hm
    as (a & u & v & -> & Hbuf & Hne & Hlf & Hetx); [|done].
  unfold drop_last. rewrite removelast_last. simpl in Hbuf.
  split; [by exists u, v | done].
Qed.

Lemma payloads_sound_witness :
  (exists u v, lit "x~ab`~cd`" = u ++ STX :: lit "cd" ++ ETX :: v)
  /\ lit "cd" <> [] /\ (LF ∉ lit "cd") /\ (ETX ∉ tail (lit "cd")).
Proof.
  apply (payloads_sound (lit "x~ab`~cd`") (lit "cd")).
  vm_compute. right. by left.
Defined.

(** ** Framing and extracting *)

Lemma run_frame p rest :
  p <> [] -> ETX ∉ p -> LF ∉ p ->
  Scan.run Scan.Idle (STX :: p ++ ETX :: rest)
  = ((p ++ [ETX]) :: (Scan.run Scan.Idle rest).1, (Scan.run Scan.Idle rest).2).
Proof.
  intros Hne He Hl. destruct p as [|c p]; [done|]. simpl.
  rewrite decide_False by (intros ->; apply Hl; by left).
  rewrite run_open_match.
  - done.
  - intros ?; apply He; by right.
  - intros ?; apply Hl; by right.
Qed.

Lemma payloads_frame p rest :
  p <> [] -> ETX ∉ p -> LF ∉ p ->
  payloads (STX :: p ++ ETX :: rest) = p :: payloads rest.
Proof.
  intros Hne He Hl. rewrite !payloads_run, run_frame by done. simpl.
  unfold drop_last at 1. by rewrite removelast_last.
Qed.

Lemma payloads_frames ps rest :
  Forall (fun p => p <> [] /\ (ETX ∉ p) /\ (LF ∉ p)) ps ->
  payloads (concat ((fun p => STX :: p ++ [ETX]) <$> ps) ++ rest)
  = ps ++ payloads rest.
Proof.
  induction ps as [|p ps IH]; intros Hall; [done|].
  apply Forall_cons in Hall as [(Hne & He & Hl) Hall].
  replace (concat ((fun p => STX :: p ++ [ETX]) <$> p :: ps) ++ rest)
    with (STX :: p ++ ETX ::
            (concat ((fun p => STX :: p ++ [ETX]) <$> ps) ++ rest))
    by (by simpl; rewrite <- ?app_assoc; simpl; rewrite <- ?app_assoc).
  rewrite payloads_frame by done. simpl. by rewrite IH.
Qed.

(** X3.  Round trip of the framing: payloads that are not empty and hold no
    [ETX] and no line feed, each put between [STX] and [ETX], with bytes
    free of [STX] and [ETX] in front and bytes free of [ETX] behind, come
    out of one pass as they went in, and what is behind stays in the
    buffer. *)
Theorem framing_round_trip garbage ps pending :
  Forall (fun p => p <> [] /\ (ETX ∉ p) /\ (LF ∉ p)) ps ->
  STX ∉ garbage -> ETX ∉ garbage -> ETX ∉ pending ->
  payloads (garbage ++ concat ((fun p => STX :: p ++ [ETX]) <$> ps) ++ pending)
  = ps
  /\ remaining
       (garbage ++ concat ((fun p => STX :: p ++ [ETX]) <$> ps) ++ pending)
     = if decide (ps = []) then garbage ++ pending else pending.
Proof.
  intros Hall Hg1 Hg2 Hp. split.
  - rewrite payloads_run, run_app, run_no_stx by done. simpl.
    rewrite <- payloads_run, payloads_frames by done.
    by rewrite payloads_without, app_nil_r.
  - case_decide as Hps.
    + subst ps. simpl. apply remaining_without.
      rewrite elem_of_app. tauto.
    + destruct ps as [|p ps _] using rev_ind; [done|].
      rewrite fmap_app, concat_app. simpl. rewrite app_nil_r.
      replace (garbage ++ (concat ((fun p => STX :: p ++ [ETX]) <$> ps)
                 ++ STX :: p ++ [ETX]) ++ pending)
        with ((garbage ++ concat ((fun p => STX :: p ++ [ETX]) <$> ps)
                 ++ STX :: p) ++ ETX :: pending).
      * by apply remaining_last.
      * by rewrite <- ?app_assoc; simpl; rewrite <- ?app_assoc.
Qed.

Lemma framing_round_trip_witness :
  payloads (lit "zz~^148|1`~*DeadZone`~^2")
  = [lit "^148|1"; lit "*DeadZone"]
  /\ remaining (lit "zz~^148|1`~*DeadZone`~^2") = lit "~^2".
Proof.
  apply (framing_round_trip (lit "zz") [lit "^148|1"; lit "*DeadZone"]
           (lit "~^2")).
  - repeat constructor; try done; absent.
  - absent.
  - absent.
  - absent.
Defined.

(** ** The read loop as a whole *)

Section ReadLoopProperties.
Context `{PyNum}.

Lemma process_candidates_app self a b :
  process_candidates self (a ++ b)
  = match process_candidates self a with
    | (evs, Return _) =>
        (evs ++ (process_candidates self b).1, (process_candidates self b).2)
    | (evs, Raise e) => (evs, Raise e)
    end.
Proof.
  induction a as [|m a IH]; simpl.
  - by destruct (process_candidates self b).
  - destruct (process_raw_pose self m) as [evs|e]; [|done].
    rewrite IH. destruct (process_candidates self a) as [evs' [[]|e]]; simpl.
    + by rewrite app_assoc.
    + done.
Qed.

(** While no frame raises, the loop is the extractor fed chunk by chunk,
    with the decoder run on what it yields. *)
Lemma read_loop_feed self chunks : forall message_buffer,
  Forall (fun m => ~ raises (process_raw_pose self m))
    (feed message_buffer chunks).1 ->
  read_loop self message_buffer chunks
  = ((process_candidates self (feed message_buffer chunks).1).1,
     ((feed message_buffer chunks).2, Stopped)).
Proof.
  induction chunks as [|c cs IH]; intros mb Hall; [done|].
  simpl in *. specialize (IH (remaining (mb ++ c))).
  destruct (feed (remaining (mb ++ c)) cs) as [out final]. simpl in *.
  apply Forall_app in Hall as [Hhere Hlater].
  destruct (process_candidates_returns self _ Hhere) as [evs He].
  unfold process_buffer. rewrite process_candidates_app, He. simpl.
  by rewrite (IH Hlater).
Qed.

(** The events of a frame are callbacks and the line on a wrong length,
    never the line of the [except] branch. *)
Lemma process_raw_pose_events self message evs :
  process_raw_pose self message = Return evs ->
  Forall (fun ev => forall e content, ev <> LogProcessingError e content) evs.
Proof.
  unfold process_raw_pose.
  destruct (char_at message 1) as [c|]; simpl; [|done].
  destruct (or_raise ValueError (py_int [c])) as [n|]; simpl; [|done].
  case_decide.
  { intros [= <-]. by repeat constructor. }
  destruct (or_raise ValueError (reshape5 _)) as [rows|]; simpl; [|done].
  destruct (decode_rows rows ∅) as [pl|]; simpl; [|done].
  destruct (_callback_global self).
  - destruct (local_to_global _ _) as [[gp unk]|]; simpl; [|done].
    intros [= <-]. destruct (_callback_local self); by repeat constructor.
  - simpl. intros [= <-]. destruct (_callback_local self); by repeat constructor.
Qed.

Lemma process_candidates_events self messages :
  Forall (fun ev => forall e content, ev <> LogProcessingError e content)
    (process_candidates self messages).1.
Proof.
  induction messages as [|m ms IH]; simpl; [constructor|].
  destruct (process_raw_pose self m) as [evs|e] eqn:E; simpl; [|constructor].
  destruct (process_candidates self ms) as [evs' r]. simpl in *.
  apply Forall_app. split; [|done]. by apply (process_raw_pose_events self m).
Qed.

Lemma read_loop_exit self chunks : forall message_buffer,
  ETX ∉ message_buffer ->
  match (read_loop self message_buffer chunks).2 with
  | (final, Stopped) =>
      (ETX ∉ final)
      /\ Forall (fun ev => forall e content, ev <> LogProcessingError e content)
           (read_loop self message_buffer chunks).1
  | (final, Broke) =>
      final = []
      /\ exists evs e content,
           (read_loop self message_buffer chunks).1
           = evs ++ [LogProcessingError e content]
           /\ Forall
                (fun ev => forall e content, ev <> LogProcessingError e content)
                evs
  end.
Proof.
  induction chunks as [|c cs IH]; intros mb Hmb; simpl.
  - split; [done | constructor].
  - unfold process_buffer.
    pose proof (process_candidates_events self (payloads (mb ++ c))) as Hev.
    destruct (process_candidates self (payloads (mb ++ c))) as [evs [[]|e]];
      simpl in *.
    + specialize (IH (remaining (mb ++ c)) (remaining_no_etx _)).
      destruct (read_loop self (remaining (mb ++ c)) cs) as [evs' [final [|]]];
        simpl in *.
      * destruct IH as [Hf Hall]. split; [done|]. by apply Forall_app.
      * destruct IH as (-> & evs0 & e & content & -> & Hall).
        split; [done|]. exists (evs ++ evs0), e, content.
        split; [by rewrite app_assoc | by apply Forall_app].
    + split; [done|]. by exists evs, e, (mb ++ c).
Qed.

(** X4.  However the loop is left, at most its last event is the line of the
    [except] branch.  Left by [break], the buffer is empty and that line is
    the last event; left because it was stopped, the buffer holds no [ETX]
    and that line was never logged. *)
Theorem _read_exit self chunks :
  match (_read self chunks).2 with
  | (final, Stopped) =>
      (ETX ∉ final)
      /\ Forall (fun ev => forall e content, ev <> LogProcessingError e content)
           (_read self chunks).1
  | (final, Broke) =>
      final = []
      /\ exists evs e content,
           (_read self chunks).1 = evs ++ [LogProcessingError e content]
           /\ Forall
                (fun ev => forall e content, ev <> LogProcessingError e content)
                evs
  end.
Proof. apply read_loop_exit. apply not_elem_of_nil. Qed.

(** X5.  When the stream holds no [STX] immediately followed by [ETX] and none
    of its frames raises, the callbacks and log lines of the loop, and the
    buffer it ends with, do not depend on how the reads cut the stream: they
    are those of the whole stream read at once. *)
Theorem _read_chunking self chunks :
  ~ has_empty_frame (concat chunks) ->
  Forall (fun m => ~ raises (process_raw_pose self m))
    (payloads (concat chunks)) ->
  _read self chunks = _read self [concat chunks]
  /\ _read self chunks
     = ((process_candidates self (payloads (concat chunks))).1,
        (remaining (concat chunks), Stopped)).
Proof.
  intros Hn Hall.
  assert (forall cs, ~ has_empty_frame (concat cs) ->
            Forall (fun m => ~ raises (process_raw_pose self m))
              (payloads (concat cs)) ->
            _read self cs
            = ((process_candidates self (payloads (concat cs))).1,
               (remaining (concat cs), Stopped))) as Hone.
  { intros cs Hn' Hall'. destruct (feed_carry cs [] Hn') as [H1 H2].
    change (remaining []) with (@nil ascii) in *. simpl in *.
    unfold _read. rewrite read_loop_feed; rewrite <- H1; [|done].
    by rewrite H2. }
  split; [|by apply Hone].
  rewrite (Hone chunks) by done. rewrite (Hone [concat chunks]).
  - simpl. by rewrite app_nil_r.
  - simpl. by rewrite app_nil_r.
  - simpl. by rewrite app_nil_r.
Qed.

End ReadLoopProperties.

Lemma _read_chunking_witness :
  _read (__init__ (H := Exact.real) ∅ true true)
    [lit "x~^2a|"; lit "b`~^"; lit "0`~^1"]
  = _read (__init__ (H := Exact.real) ∅ true true) [lit "x~^2a|b`~^0`~^1"].
Proof.
  apply (_read_chunking (__init__ (H := Exact.real) ∅ true true)
           [lit "x~^2a|"; lit "b`~^"; lit "0`~^1"]).
  - intros Hf%empty_frame_in_complete. discriminate.
  - change (payloads (concat [lit "x~^2a|"; lit "b`~^"; lit "0`~^1"]))
      with [lit "^2a|b"; lit "^0"].
    repeat constructor; apply bad_length_returns.
    + exists "2"%char, 2%Z. repeat split. simpl. lia.
    + exists "0"%char, 0%Z. repeat split. simpl. lia.
Defined.

(** ** More on the decoder *)

Section DecoderExtras.
Context `{PyNum}.

(** X6.  The first character of a payload, where the device puts the result
    marker, is never looked at: two payloads that differ in it alone raise
    the same exception, or deliver the same events, or are both logged for
    their length. *)
Theorem result_marker_unchecked self t1 t2 s :
  match process_raw_pose self (t1 :: s), process_raw_pose self (t2 :: s) with
  | Return evs1, Return evs2 =>
      evs1 = evs2
      \/ (evs1 = [LogBadLength (t1 :: s)] /\ evs2 = [LogBadLength (t2 :: s)])
  | Raise e1, Raise e2 => e1 = e2
  | _, _ => False
  end.
Proof.
  unfold process_raw_pose, char_at.
  change ((t1 :: s) !! 1) with (s !! 0). change ((t2 :: s) !! 1) with (s !! 0).
  change (drop 2 (t1 :: s)) with (drop 1 s).
  change (drop 2 (t2 :: s)) with (drop 1 s).
  destruct (s !! 0) as [c|]; simpl; [|done].
  destruct (py_int [c]) as [n|]; simpl; [|done].
  case_decide; [by right|].
  destruct (reshape5 _) as [rows|]; simpl; [|done].
  destruct (decode_rows rows ∅) as [pl|]; simpl; [|done].
  destruct (_callback_global self); simpl; [|by left].
  destruct (local_to_global _ _) as [[gp unk]|]; simpl; [by left | done].
Qed.

(** X7.  A count of zero, or less, never decodes: [split] yields at least one
    field, so the length test fails and the frame is logged and skipped. *)
Theorem empty_report_skipped self message c marker_count :
  message !! 1 = Some c -> py_int [c] = Some marker_count ->
  (marker_count <= 0)%Z ->
  process_raw_pose self message = Return [LogBadLength message].
Proof.
  intros Hc Hn Hle. apply bad_length_skipped. exists c, marker_count.
  repeat split; try done.
  pose proof (split_nonempty DELIM (drop 2 message)) as Hs.
  destruct (split DELIM (drop 2 message)); [done|]. simpl. lia.
Qed.

Lemma decode_rows_app rows rows' pose_local :
  decode_rows (rows ++ rows') pose_local
  = pl ← decode_rows rows pose_local; decode_rows rows' pl.
Proof.
  revert pose_local. induction rows as [|row rows IH]; intros pl; simpl.
  - by destruct (decode_rows rows' pl).
  - destruct (decode_row row) as [[i inverse]|e]; simpl; [apply IH | done].
Qed.

(** Rows that store under other ids leave an entry as it is. *)
Lemma decode_rows_keeps rows : forall pose_local pose_local' i,
  decode_rows rows pose_local = Return pose_local' ->
  Forall (fun row => forall j v, decode_row row = Return (j, v) -> j <> i)
    rows ->
  pose_local' !! i = pose_local !! i.
Proof.
  induction rows as [|row rows IH]; intros pl pl' i; simpl.
  - by intros [= <-].
  - destruct (decode_row row) as [[j v]|e] eqn:E; simpl; [|done].
    intros Hd [Hne Hall]%Forall_cons. rewrite (IH _ _ i Hd Hall).
    rewrite lookup_insert_ne; [done|]. by apply (Hne j v).
Qed.

(** X8.  Within one frame the last row of a marker id wins: what the dictionary
    holds for an id is what the last row with that id stored. *)
Theorem last_row_wins rows row rows' pose_local pose_local' i inverse :
  decode_rows (rows ++ row :: rows') pose_local = Return pose_local' ->
  decode_row row = Return (i, inverse) ->
  Forall (fun row => forall j v, decode_row row = Return (j, v) -> j <> i)
    rows' ->
  pose_local' !! i = Some inverse.
Proof.
  rewrite decode_rows_app.
  destruct (decode_rows rows pose_local) as [pl|e]; simpl; [|done].
  intros Hd Hrow Hall. rewrite Hrow in Hd. simpl in Hd.
  rewrite (decode_rows_keeps rows' _ _ i Hd Hall).
  by rewrite lookup_insert_eq.
Qed.

End DecoderExtras.

Section DecoderResolver.
Context `{PyNum}.

(** A frame whose rows decode, with the global callback. *)
Lemma process_raw_pose_rows_global self message c marker_count rows
    pose_local global_pose unknown_ids :
  message !! 1 = Some c -> py_int [c] = Some marker_count ->
  Z.of_nat (length (split DELIM (drop 2 message))) = (marker_count * 5)%Z ->
  reshape5 (split DELIM (drop 2 message)) = Some rows ->
  decode_rows rows ∅ = Return pose_local ->
  _callback_global self = true ->
  local_to_global (marker_map self) (items pose_local)
  = Return (global_pose, unknown_ids) ->
  process_raw_pose self message
  = Return (CallbackGlobal global_pose unknown_ids
              :: if _callback_local self
                 then [CallbackLocal pose_local] else []).
Proof.
  intros Hc Hn Hl Hr Hd Hg Hres. unfold process_raw_pose, char_at.
  rewrite Hc. simpl. rewrite Hn. simpl.
  rewrite decide_False by (intros ?; done).
  rewrite Hr. simpl. rewrite Hd. simpl. rewrite Hg, Hres. done.
Qed.

Lemma lit_inj s1 s2 : lit s1 = lit s2 -> s1 = s2.
Proof.
  unfold lit. intros E.
  rewrite <- (string_of_list_ascii_of_string s1),
          <- (string_of_list_ascii_of_string s2). by rewrite E.
Qed.

Lemma elem_of_items (pose_local : gmap Z ndarray) k pose :
  (k, pose) ∈ items pose_local <->
  exists i, k = IntId i /\ pose_local !! i = Some pose.
Proof.
  unfold items. rewrite list_elem_of_fmap. split.
  - intros ([i v] & [= -> ->] & Hin%elem_of_map_to_list). by exists i.
  - intros (i & -> & Hin). exists (i, pose). split; [done|].
    by apply elem_of_map_to_list.
Qed.

(** The ids the decoder stores stay distinct once turned into strings. *)
Lemma items_distinct (pose_local : gmap Z ndarray) :
  NoDup (py_str <$> (items pose_local).*1).
Proof.
  unfold items. rewrite <- !list_fmap_compose.
  apply (NoDup_fmap_2_strong _).
  - intros [i v] [j w] Hi Hj. simpl. intros E%lit_inj.
    apply (inj pretty) in E. subst j.
    apply elem_of_map_to_list in Hi, Hj. congruence.
  - apply NoDup_map_to_list.
Qed.

(** X9.  From a frame to the global callback: when the rows of a frame decode
    and the stored transforms of the markers found in the map have an
    inverse, the global callback comes first and receives, for every id
    stored that is in the map under its decimal string, [dot] of the map's
    transform and the inverse of the stored one, and as unknown ids the
    decimal strings of the ids stored that the map lacks. *)
Theorem decoded_frame_resolved self message c marker_count rows pose_local :
  message !! 1 = Some c -> py_int [c] = Some marker_count ->
  Z.of_nat (length (split DELIM (drop 2 message))) = (marker_count * 5)%Z ->
  reshape5 (split DELIM (drop 2 message)) = Some rows ->
  decode_rows rows ∅ = Return pose_local ->
  _callback_global self = true ->
  (forall i pose,
     pose_local !! i = Some pose ->
     is_Some (marker_map self !! lit (pretty i)) ->
     is_Some (linalg_inv pose)) ->
  exists global_pose unknown_ids,
    process_raw_pose self message
    = Return (CallbackGlobal global_pose unknown_ids
                :: if _callback_local self
                   then [CallbackLocal pose_local] else [])
    /\ (forall id g,
          global_pose !! id = Some g <->
          exists i pose m q,
            pose_local !! i = Some pose /\ id = lit (pretty i)
            /\ marker_map self !! id = Some m
            /\ linalg_inv pose = Some q /\ g = dot m q)
    /\ (forall id,
          id ∈ unknown_ids <->
          exists i pose,
            pose_local !! i = Some pose /\ id = lit (pretty i)
            /\ marker_map self !! id = None).
Proof.
  intros Hc Hn Hl Hr Hd Hg Hinv.
  destruct (resolve_items_spec (marker_map self) (items pose_local) ∅ ∅)
    as (gp & unk & Hres & Hgp & Hunk).
  { apply items_distinct. }
  { intros k pose (i & -> & Hi)%elem_of_items. by apply Hinv. }
  exists gp, unk. split; [|split].
  - by apply (process_raw_pose_rows_global self message c marker_count rows).
  - intros id g. rewrite Hgp. split.
    + intros [(k & pose & m & q & (i & -> & Hi)%elem_of_items & <- & Hm & Hq & ->)
             |[_ Hg']]; [|by rewrite lookup_empty in Hg'].
      by exists i, pose, m, q.
    + intros (i & pose & m & q & Hi & -> & Hm & Hq & ->). left.
      exists (IntId i), pose, m, q. repeat split; try done.
      apply elem_of_items. by exists i.
  - intros id. rewrite Hunk. split.
    + intros [(k & pose & (i & -> & Hi)%elem_of_items & <- & Hm)|Hid];
        [|by apply not_elem_of_empty in Hid].
      by exists i, pose.
    + intros (i & pose & Hi & -> & Hm). left.
      exists (IntId i), pose. repeat split; try done.
      apply elem_of_items. by exists i.
Qed.

End DecoderResolver.

(** ** The decoder in exact arithmetic *)

Section ExactDecoder.
Import Exact.
Local Open Scope R_scope.

(** A row whose fields convert, with the inverse in closed form. *)
Lemma decode_row_closed id yaw x y z marker_id degrees cx cy cz :
  int id = Some marker_id ->
  float yaw = Some degrees ->
  float x = Some cx -> float y = Some cy -> float z = Some cz ->
  let t := - (degrees * (PI / 180)) in
  let X := cx * (1 / 100) in
  let Y := cy * (1 / 100) in
  let Z := - (cz * (1 / 100)) in
  decode_row [id; yaw; x; y; z]
  = Return (marker_id,
            [ [cos t; sin t; 0; - (cos t * X + sin t * Y)];
              [- sin t; cos t; 0; sin t * X - cos t * Y];
              [0; 0; 1; - Z];
              [0; 0; 0; 1] ]).
Proof.
  intros Hid Hyaw Hx Hy Hz t X Y Z.
  apply (decode_row_ok (H := real) id yaw x y z marker_id degrees cx cy cz);
    try done.
  apply (ExactFacts.inverse_fourdof X Y Z t).
Qed.

(** Inverting twice gives the transform back: the inversion of the resolver
    undoes that of the decoder. *)
Lemma inverse_inverse_fourdof x y z yaw N :
  inverse (fourdof_to_matrix [x; y; z] yaw) = Some N ->
  inverse N = Some (fourdof_to_matrix [x; y; z] yaw).
Proof.
  rewrite ExactFacts.inverse_fourdof. intros [= <-].
  pose proof (ExactFacts.inverse_fourdof
                (- (cos yaw * x + sin yaw * y)) (sin yaw * x - cos yaw * y)
                (- z) (- yaw)) as Hi.
  rewrite ExactFacts.fourdof_matrix, cos_neg, sin_neg, !Ropp_involutive in Hi.
  etrans; [exact Hi|]. rewrite ExactFacts.fourdof_matrix.
  pose proof (sin2_cos2 yaw) as Hsc. unfold Rsqr in Hsc.
  f_equal. repeat (f_equal; try lra).
  - transitivity (x * (sin yaw * sin yaw + cos yaw * cos yaw));
      [ring | rewrite Hsc; ring].
  - transitivity (y * (sin yaw * sin yaw + cos yaw * cos yaw));
      [ring | rewrite Hsc; ring].
Qed.

End ExactDecoder.

Section ResolverSingle.
Context `{PyNum}.

Lemma local_to_global_single marker_map k pose m q :
  marker_map !! py_str k = Some m -> linalg_inv pose = Some q ->
  local_to_global marker_map [(k, pose)]
  = Return ({[py_str k := dot m q]}, ∅).
Proof.
  intros Hm Hq. unfold local_to_global. cbn [resolve_items].
  rewrite Hm, Hq. simpl. by rewrite insert_empty.
Qed.

Lemma items_singleton i (pose : ndarray) :
  items {[i := pose]} = [(IntId i, pose)].
Proof. unfold items. by rewrite map_to_list_singleton. Qed.

(** X11.  From a frame to the global pose: for a frame of one marker whose
    fields convert and whose id is in the map under its decimal string, the
    global callback receives for that id [dot] of the map's transform and
    the transform of yaw [-radians(yaw)] and translation
    [(.01 x, .01 y, -(.01 z))] inverted twice, by the decoder and then by
    [local_to_global], and no unknown id. *)
Theorem global_pose_single self tag count id yaw x y z
    marker_id degrees cx cy cz stored seen marker_to_map :
  py_int [count] = Some 1%Z ->
  Forall (fun f => (DELIM ∉ f) /\ np_item f = f) [id; yaw; x; y; z] ->
  py_int id = Some marker_id ->
  py_float yaw = Some degrees ->
  py_float x = Some cx -> py_float y = Some cy -> py_float z = Some cz ->
  linalg_inv
    (fourdof_to_matrix [fmul cx centi; fmul cy centi; fneg (fmul cz centi)]
       (fneg (radians degrees))) = Some stored ->
  linalg_inv stored = Some seen ->
  _callback_global self = true -> _callback_local self = false ->
  marker_map self !! lit (pretty marker_id) = Some marker_to_map ->
  process_raw_pose self (tag :: count :: join DELIM [id; yaw; x; y; z])
  = Return
      [CallbackGlobal {[lit (pretty marker_id) := dot marker_to_map seen]} ∅].
Proof.
  intros Hcount Hclean Hid Hyaw Hx Hy Hz Hstored Hseen Hg Hl Hm.
  assert (split DELIM (join DELIM [id; yaw; x; y; z]) = [id; yaw; x; y; z])
    as Hsplit.
  { apply split_join; [done|]. eapply Forall_impl; [exact Hclean|].
    by intros f [? ?]. }
  assert (np_item <$> [id; yaw; x; y; z] = [id; yaw; x; y; z]) as Hitems.
  { rewrite <- (list_fmap_id [id; yaw; x; y; z]) at 2.
    apply Forall_fmap_ext_1. eapply Forall_impl; [exact Hclean|].
    by intros f [? ?]. }
  assert (decode_rows [[id; yaw; x; y; z]] ∅ = Return {[marker_id := stored]})
    as Hd.
  { cbn [decode_rows].
    rewrite (decode_row_ok id yaw x y z marker_id degrees cx cy cz stored)
      by done.
    simpl. by rewrite insert_empty. }
  assert (local_to_global (marker_map self) (items {[marker_id := stored]})
          = Return ({[lit (pretty marker_id) := dot marker_to_map seen]}, ∅))
    as Hres.
  { rewrite items_singleton.
    by apply (local_to_global_single (marker_map self) (IntId marker_id)). }
  assert (Z.of_nat (length (split DELIM
                    (drop 2 (tag :: count :: join DELIM [id; yaw; x; y; z]))))
          = (1 * 5)%Z) as Hlen.
  { change (drop 2 (tag :: count :: ?s)) with s. by rewrite Hsplit. }
  assert (reshape5 (split DELIM
                      (drop 2 (tag :: count :: join DELIM [id; yaw; x; y; z])))
          = Some [[id; yaw; x; y; z]]) as Hresh.
  { change (drop 2 (tag :: count :: ?s)) with s. rewrite Hsplit.
    change (reshape5 [id; yaw; x; y; z])
      with (Some [np_item <$> [id; yaw; x; y; z]]). by rewrite Hitems. }
  rewrite (process_raw_pose_rows_global self
             (tag :: count :: join DELIM [id; yaw; x; y; z]) count 1%Z
             [[id; yaw; x; y; z]] _ _ _ eq_refl Hcount Hlen Hresh Hd Hg Hres).
  by rewrite Hl.
Qed.

End ResolverSingle.


(** Witnesses, on frames in exact arithmetic. *)

Lemma empty_report_skipped_witness :
  process_raw_pose (__init__ (H := Exact.real) ∅ true true) (lit "^0")
  = Return [LogBadLength (lit "^0")].
Proof.
  apply (empty_report_skipped (__init__ (H := Exact.real) ∅ true true)
           (lit "^0") "0"%char 0%Z); [reflexivity | reflexivity | lia].
Defined.

Lemma last_row_wins_witness :
  exists pose_local' first second,
    decode_row (H := Exact.real)
      [lit "148"; lit "1.0"; lit "2.0"; lit "3.0"; lit "4.0"]
    = Return (148%Z, first)
    /\ decode_row (H := Exact.real)
         [lit "148"; lit "9.0"; lit "8.0"; lit "7.0"; lit "6.0"]
       = Return (148%Z, second)
    /\ decode_rows
         ([[lit "148"; lit "1.0"; lit "2.0"; lit "3.0"; lit "4.0"]]
            ++ [lit "148"; lit "9.0"; lit "8.0"; lit "7.0"; lit "6.0"]
            :: [[lit "7"; lit "0.5"; lit "0.5"; lit "0.5"; lit "0.5"]]) ∅
       = Return pose_local'
    /\ pose_local' !! 148%Z = Some second.
Proof.
  pose proof (decode_row_closed (lit "148") (lit "1.0") (lit "2.0") (lit "3.0")
                (lit "4.0") _ _ _ _ _ eq_refl eq_refl eq_refl eq_refl eq_refl)
    as E1.
  pose proof (decode_row_closed (lit "148") (lit "9.0") (lit "8.0") (lit "7.0")
                (lit "6.0") _ _ _ _ _ eq_refl eq_refl eq_refl eq_refl eq_refl)
    as E2.
  pose proof (decode_row_closed (lit "7") (lit "0.5") (lit "0.5") (lit "0.5")
                (lit "0.5") _ _ _ _ _ eq_refl eq_refl eq_refl eq_refl eq_refl)
    as E3.
  cbv zeta in E1, E2, E3.
  assert (exists pose_local',
            decode_rows
              ([[lit "148"; lit "1.0"; lit "2.0"; lit "3.0"; lit "4.0"]]
                 ++ [lit "148"; lit "9.0"; lit "8.0"; lit "7.0"; lit "6.0"]
                 :: [[lit "7"; lit "0.5"; lit "0.5"; lit "0.5"; lit "0.5"]]) ∅
            = Return pose_local') as [pose_local' Hd].
  { cbn [app decode_rows]. rewrite E1. cbn [mbind res_bind].
    rewrite E2. cbn [mbind res_bind]. rewrite E3. cbn [mbind res_bind].
    by eexists. }
  eexists pose_local', _, _. split; [exact E1|]. split; [exact E2|].
  split; [exact Hd|].
  apply (last_row_wins (H := Exact.real) _ _ _ _ _ _ _ Hd E2).
  repeat constructor. intros j v. rewrite E3. by intros [= <- _].
Defined.

Lemma global_pose_single_witness :
  exists global,
    process_raw_pose
      {| marker_map := {[lit "148" := Exact.identity]};
         connection := None; _chunk_size := 80;
         _callback_global := true; _callback_local := false;
         _stopped := false; _thread := None |}
      (lit "^1148|182.39|-175.91|+98.74|+7.10")
    = Return [CallbackGlobal {[lit "148" := global]} ∅].
Proof.
  destruct (ExactFacts.fourdof_invertible
              (-175.91 * (1 / 100))%R (98.74 * (1 / 100))%R
              (- (7.10 * (1 / 100)))%R (- (182.39 * (PI / 180)))%R)
    as [stored Hstored].
  pose proof (inverse_inverse_fourdof _ _ _ _ _ Hstored) as Hseen.
  match type of Hseen with _ = Some ?M => set (seen := M) in * end.
  exists (Exact.product Exact.identity seen).
  apply (global_pose_single (H := Exact.real) _ "^"%char "1"%char
           (lit "148") (lit "182.39") (lit "-175.91") (lit "+98.74")
           (lit "+7.10") 148%Z 182.39%R (-175.91)%R 98.74%R 7.10%R
           stored seen Exact.identity);
    [reflexivity | repeat constructor; absent | reflexivity | reflexivity
    | reflexivity | reflexivity | reflexivity | exact Hstored | exact Hseen
    | reflexivity | reflexivity | reflexivity].
Defined.

Lemma decoded_frame_resolved_witness :
  exists global_pose unknown_ids stored,
    process_raw_pose
      {| marker_map := (∅ : gmap bytes (ndarray (PyNum := Exact.real)));
         connection := None; _chunk_size := 80;
         _callback_global := true; _callback_local := true;
         _stopped := false; _thread := None |}
      (lit "^1148|182.39|-175.91|+98.74|+7.10")
    = Return [CallbackGlobal global_pose unknown_ids;
              CallbackLocal {[148%Z := stored]}]
    /\ lit "148" ∈ unknown_ids.
Proof.
  pose proof (decode_row_closed (lit "148") (lit "182.39") (lit "-175.91")
                (lit "+98.74") (lit "+7.10") _ _ _ _ _
                eq_refl eq_refl eq_refl eq_refl eq_refl) as E.
  cbv zeta in E.
  match type of E with _ = Return (_, ?M) => set (stored := M) in * end.
  destruct (decoded_frame_resolved
              {| marker_map := (∅ : gmap bytes (ndarray (PyNum := Exact.real)));
                 connection := None; _chunk_size := 80;
                 _callback_global := true; _callback_local := true;
                 _stopped := false; _thread := None |}
              (lit "^1148|182.39|-175.91|+98.74|+7.10") "1"%char 1%Z
              [[lit "148"; lit "182.39"; lit "-175.91"; lit "+98.74";
                lit "+7.10"]]
              {[148%Z := stored]})
    as (gp & unk & Hp & _ & Hunk); try reflexivity.
  - cbn [decode_rows]. rewrite E. cbn [mbind res_bind]. by rewrite insert_empty.
  - intros i pose _ [m Hm]. cbn [marker_map] in Hm.
    by rewrite lookup_empty in Hm.
  - exists gp, unk, stored. split; [exact Hp|].
    apply Hunk. exists 148%Z, stored. split; [|done].
    by rewrite lookup_singleton_eq.
Defined.

(** ** More on the coordinate resolver *)

Section ResolverExtras.
Context `{PyNum}.

(** The observations that make [local_to_global] fail: the id is in the
    map and the transform has no inverse. *)
Lemma resolve_items_raises marker_map items : forall global_poses unknown_ids,
  (forall e,
     resolve_items marker_map items global_poses unknown_ids = Raise e ->
     e = LinAlgError)
  /\ (raises (resolve_items marker_map items global_poses unknown_ids) <->
      Exists (fun kp => is_Some (marker_map !! py_str kp.1)
                        /\ linalg_inv kp.2 = None) items).
Proof.
  induction items as [|[k pose] items IH]; intros gp unk; simpl.
  - split; [done|]. split; [by intros [e ?] | by intros ?%Exists_nil].
  - destruct (marker_map !! py_str k) as [m|] eqn:Em.
    + destruct (linalg_inv pose) as [q|] eqn:Eq; simpl.
      * destruct (IH (<[py_str k := dot m q]> gp) unk) as [IH1 IH2].
        split; [exact IH1|]. rewrite IH2, Exists_cons. simpl.
        rewrite Em, Eq. split; [by right|]. by intros [[_ ?]|?].
      * split; [by intros e [= <-]|]. split.
        -- intros _. apply Exists_cons_hd. simpl. by rewrite Em, Eq.
        -- intros _. by exists LinAlgError.
    + destruct (IH gp ({[py_str k]} ∪ unk)) as [IH1 IH2].
      split; [exact IH1|]. rewrite IH2, Exists_cons. simpl. rewrite Em.
      split; [by right|]. by intros [[[? ?] _]|?].
Qed.

(** X12.  [local_to_global] fails exactly when an observation whose id is in the
    map has a transform without inverse, and then with [LinAlgError]; the
    transform of an id that the map lacks is never inverted. *)
Theorem local_to_global_failure marker_map local_poses :
  (raises (local_to_global marker_map local_poses) <->
   exists k pose,
     (k, pose) ∈ local_poses /\ is_Some (marker_map !! py_str k)
     /\ linalg_inv pose = None)
  /\ (forall e,
        local_to_global marker_map local_poses = Raise e -> e = LinAlgError).
Proof.
  destruct (resolve_items_raises marker_map local_poses ∅ ∅) as [H1 H2].
  split; [|exact H1]. unfold local_to_global. rewrite H2, Exists_exists.
  split.
  - intros ([k pose] & Hin & Hk & Hp). by exists k, pose.
  - intros (k & pose & Hin & Hk & Hp). by exists (k, pose).
Qed.

Local Ltac keys :=
  repeat first
    [ rewrite elem_of_union | rewrite elem_of_intersection
    | rewrite elem_of_difference | rewrite elem_of_list_to_set
    | rewrite fmap_cons | rewrite elem_of_cons | rewrite elem_of_singleton
    | rewrite elem_of_empty | rewrite elem_of_nil ];
  intuition (subst; try (exfalso; auto; fail); auto).

Lemma resolve_items_keys marker_map items :
  forall global_poses unknown_ids global_poses' unknown_ids',
  resolve_items marker_map items global_poses unknown_ids
  = Return (global_poses', unknown_ids') ->
  dom global_poses'
  = dom global_poses ∪ (list_to_set (py_str <$> items.*1) ∩ dom marker_map)
  /\ unknown_ids'
     = unknown_ids ∪ (list_to_set (py_str <$> items.*1) ∖ dom marker_map).
Proof.
  induction items as [|[k pose] items IH]; intros gp unk gp' unk';
    cbn [resolve_items fmap list_fmap fst].
  - intros [= <- <-]. split; apply set_eq; intros x; keys.
  - destruct (marker_map !! py_str k) as [m|] eqn:Em.
    + destruct (linalg_inv pose) as [q|]; simpl; [|done].
      intros [-> ->]%IH. rewrite dom_insert_L.
      assert (py_str k ∈ dom marker_map) by (apply elem_of_dom; by eexists).
      split; apply set_eq; intros x; keys.
    + intros [-> ->]%IH.
      assert (py_str k ∉ dom marker_map) by (by apply not_elem_of_dom).
      split; apply set_eq; intros x; keys.
Qed.

(** X13.  When [local_to_global] returns, every observed id, as a string, is
    either a key of [global_poses], if the map has it, or a member of
    [unknown_ids], if not: the keys are the observed ids that are in the
    map, the unknown ids the observed ids that are not, whatever ids
    coincide. *)
Theorem local_to_global_partition marker_map local_poses
    global_poses unknown_ids :
  local_to_global marker_map local_poses = Return (global_poses, unknown_ids) ->
  dom global_poses
  = list_to_set (py_str <$> local_poses.*1) ∩ dom marker_map
  /\ unknown_ids
     = list_to_set (py_str <$> local_poses.*1) ∖ dom marker_map.
Proof.
  intros [Hd Hu]%resolve_items_keys. rewrite Hd, Hu, dom_empty_L.
  split; apply set_eq; intros x; keys.
Qed.

(** X14.  The order in which the dictionary is walked does not matter when the
    observed ids are distinct as strings. *)
Theorem local_to_global_order marker_map local_poses local_poses' :
  local_poses ≡ₚ local_poses' ->
  NoDup (py_str <$> local_poses.*1) ->
  local_to_global marker_map local_poses
  = local_to_global marker_map local_poses'.
Proof.
  intros Hperm Hnd.
  assert (NoDup (py_str <$> local_poses'.*1)) as Hnd'.
  { by rewrite <- Hperm. }
  destruct (resolve_items_raises marker_map local_poses ∅ ∅) as [He Hr].
  destruct (resolve_items_raises marker_map local_poses' ∅ ∅) as [He' Hr'].
  unfold local_to_global.
  destruct (resolve_items marker_map local_poses ∅ ∅) as [[gp unk]|e] eqn:E.
  - destruct (resolve_items marker_map local_poses' ∅ ∅) as [[gp' unk']|e']
      eqn:E'.
    + assert (forall lp, lp ≡ₚ local_poses ->
                ~ raises (resolve_items marker_map lp ∅ ∅) ->
                forall k pose, (k, pose) ∈ lp ->
                  is_Some (marker_map !! py_str k) -> is_Some (linalg_inv pose))
        as Hinv.
      { intros lp Hlp Hno k pose Hin Hk.
        destruct (linalg_inv pose) as [q|] eqn:Eq; [by eexists|].
        destruct Hno.
        apply (proj2 (resolve_items_raises marker_map lp ∅ ∅)).
        apply Exists_exists. by exists (k, pose). }
      destruct (resolve_items_spec marker_map local_poses ∅ ∅ Hnd)
        as (g1 & u1 & E1 & Hg1 & Hu1).
      { apply (Hinv local_poses); [done|]. rewrite E. by intros [? ?]. }
      destruct (resolve_items_spec marker_map local_poses' ∅ ∅ Hnd')
        as (g2 & u2 & E2 & Hg2 & Hu2).
      { apply (Hinv local_poses'); [done|]. rewrite E'. by intros [? ?]. }
      rewrite E in E1. rewrite E' in E2.
      injection E1 as <- <-. injection E2 as <- <-.
      f_equal. f_equal.
      * apply map_eq. intros id. apply option_eq. intros g.
        rewrite Hg1, Hg2. by setoid_rewrite Hperm.
      * apply set_eq. intros id. rewrite Hu1, Hu2. by setoid_rewrite Hperm.
    + destruct (proj2 Hr) as [? ?]; [|done].
      rewrite Hperm. apply Hr'. by exists e'.
  - assert (raises (resolve_items marker_map local_poses' ∅ ∅)) as [e' E'].
    { apply Hr'. rewrite <- Hperm. apply Hr. by exists e. }
    rewrite E'. rewrite (He e), (He' e'); done.
Qed.

End ResolverExtras.

Lemma local_to_global_partition_witness :
  exists global_poses unknown_ids,
    local_to_global {[lit "148" := Exact.identity]}
      [(IntId 148, fourdof_to_matrix [1%R; 2%R; 3%R] 0%R);
       (StrId (lit "999"), fourdof_to_matrix [4%R; 5%R; 6%R] 0%R)]
    = Return (global_poses, unknown_ids)
    /\ dom global_poses
       = list_to_set [lit "148"; lit "999"]
         ∩ dom ({[lit "148" := Exact.identity]} : gmap bytes ndarray)
    /\ unknown_ids
       = list_to_set [lit "148"; lit "999"]
         ∖ dom ({[lit "148" := Exact.identity]} : gmap bytes ndarray).
Proof.
  destruct (resolve_items_spec (H := Exact.real)
              {[lit "148" := Exact.identity]}
              [(IntId 148, fourdof_to_matrix (H := Exact.real) [1%R; 2%R; 3%R] 0%R);
               (StrId (lit "999"), fourdof_to_matrix (H := Exact.real) [4%R; 5%R; 6%R] 0%R)]
              ∅ ∅) as (gp & unk & Hr & _).
  - change (NoDup [lit "148"; lit "999"]). repeat constructor; absent.
  - intros k pose [[= -> ->]|[[= -> ->]|[]%elem_of_nil]%elem_of_cons]%elem_of_cons _;
      apply ExactFacts.fourdof_invertible.
  - exists gp, unk. split; [exact Hr|].
    exact (local_to_global_partition (H := Exact.real) _ _ gp unk Hr).
Defined.

Lemma local_to_global_order_witness :
  local_to_global {[lit "148" := Exact.identity]}
    [(IntId 148, fourdof_to_matrix [1%R; 2%R; 3%R] 0%R);
     (StrId (lit "999"), fourdof_to_matrix [4%R; 5%R; 6%R] 0%R)]
  = local_to_global {[lit "148" := Exact.identity]}
      [(StrId (lit "999"), fourdof_to_matrix [4%R; 5%R; 6%R] 0%R);
       (IntId 148, fourdof_to_matrix [1%R; 2%R; 3%R] 0%R)].
Proof.
  apply (local_to_global_order (H := Exact.real)).
  - apply perm_swap.
  - change (NoDup [lit "148"; lit "999"]). repeat constructor; absent.
Defined.

Lemma local_to_global_failure_witness :
  local_to_global (H := Exact.real) {[lit "148" := Exact.identity]}
    [(StrId (lit "999"), []);
     (IntId 148, [ [0; 0; 0; 0]; [0; 0; 0; 0]; [0; 0; 0; 0]; [0; 0; 0; 0] ]%R)]
  = Raise LinAlgError.
Proof.
  destruct (local_to_global_failure (H := Exact.real)
              {[lit "148" := Exact.identity]}
              [(StrId (lit "999"), []);
               (IntId 148,
                [ [0; 0; 0; 0]; [0; 0; 0; 0]; [0; 0; 0; 0]; [0; 0; 0; 0] ]%R)])
    as [Hiff Hexn].
  destruct (proj2 Hiff) as [e He]; [|by rewrite He, (Hexn e He)].
  eexists (IntId 148), _. split; [by right; left|]. split.
  - change (py_str (IntId 148)) with (lit "148").
    rewrite lookup_singleton_eq. by eexists.
  - change (Exact.inverse
              [ [0; 0; 0; 0]; [0; 0; 0; 0]; [0; 0; 0; 0]; [0; 0; 0; 0] ]%R
            = None).
    unfold Exact.inverse.
    destruct (Req_EM_T _ _) as [_|Hd]; [done|]. destruct Hd.
    cbv [Exact.det Exact.minor Exact.rsum Exact.alternate Exact.entry seq fmap
         list_fmap foldr Nat.even delete list_delete lookup list_lookup
         default mbind option_bind Datatypes.id from_option length].
    ring.
Defined.

(** ** What a command leaves in the port *)

Lemma await_response_consumed command_str expected incoming :
  forall actual left r,
  expected <> [] ->
  await_response command_str expected actual incoming = (left, r) ->
  exists k,
    (forall i, i < k ->
       ~ expected `suffix_of` (actual ++ concat (take i incoming)))
    /\ Forall (fun c => c <> []) (take k incoming)
    /\ match r with
       | Return _ =>
           expected `suffix_of` (actual ++ concat (take k incoming))
           /\ left = drop k incoming
       | Raise _ =>
           default [] (incoming !! k) = [] /\ left = drop (S k) incoming
       end.
Proof.
  induction incoming as [|c incoming IH]; intros actual left r Hne; simpl.
  - case_decide as Hm.
    + intros [= <- <-]. exists 0. split; [lia|]. split; [constructor|].
      simpl. rewrite app_nil_r. split; [by apply last_chars_suffix | done].
    + intros [= <- <-]. exists 0. split; [lia|]. by split; [constructor|].
  - case_decide as Hm.
    + intros [= <- <-]. exists 0. split; [lia|]. split; [constructor|].
      simpl. rewrite app_nil_r. split; [by apply last_chars_suffix | done].
    + case_decide as Hc.
      * intros [= <- <-]. exists 0. split; [lia|]. by split; [constructor|].
      * intros Hr. destruct (IH _ _ _ Hne Hr) as (k & Hno & Hall & Hk).
        exists (S k). split; [|split].
        -- intros [|i] Hi; simpl.
           ++ rewrite app_nil_r. by rewrite <- last_chars_suffix.
           ++ rewrite app_assoc. apply Hno. lia.
        -- simpl. by constructor.
        -- destruct r; simpl; [by rewrite app_assoc | done].
Qed.

(** [_send_command] as the loop on the reads after the first. *)
Lemma _send_command_await conn args :
  _send_command conn args
  = ({| written := written conn ++ command_frame args;
        incoming :=
          (await_response (command_frame args) (response_frame args)
             (default [] (head (incoming conn))) (tail (incoming conn))).1 |},
     (await_response (command_frame args) (response_frame args)
        (default [] (head (incoming conn))) (tail (incoming conn))).2).
Proof.
  unfold _send_command. cbv zeta.
  destruct (written_foldl conn (command_frame args)) as [Hw Hi].
  remember (foldl serial_write conn (command_frame args)) as conn' eqn:E.
  clear E. unfold serial_read. rewrite Hi.
  destruct (incoming conn) as [|first later];
    cbn [default head tail from_option Datatypes.id].
  - rewrite Hi.
    destruct (await_response (command_frame args) (response_frame args) [] []).
    simpl. by rewrite Hw.
  - cbn [incoming written].
    destruct (await_response (command_frame args) (response_frame args)
                first later).
    simpl. by rewrite Hw.
Qed.

(** X15.  A command reads no further than it must.  When it succeeds, the reads
    of the loop that it has used, all of which returned bytes, are those
    before the first point at which what was read ends with the
    acknowledgement: the reads after that point are left in the port.  When
    it fails, it has used the reads up to and including the first one that
    returned nothing; the later ones are left in the port, although an
    acknowledgement might be among them. *)
Theorem _send_command_consumed conn args conn' r :
  _send_command conn args = (conn', r) ->
  let expected := response_frame args in
  let first := default [] (head (incoming conn)) in
  let later := tail (incoming conn) in
  exists k,
    (forall i, i < k ->
       ~ expected `suffix_of` (first ++ concat (take i later)))
    /\ Forall (fun c => c <> []) (take k later)
    /\ match r with
       | Return _ =>
           expected `suffix_of` (first ++ concat (take k later))
           /\ incoming conn' = drop k later
       | Raise _ =>
           default [] (later !! k) = [] /\ incoming conn' = drop (S k) later
       end.
Proof.
  rewrite _send_command_await. intros [= <- <-]. cbv zeta.
  cbn [incoming].
  destruct (await_response (command_frame args) (response_frame args)
              (default [] (head (incoming conn))) (tail (incoming conn)))
    as [left r] eqn:E.
  exact (await_response_consumed _ _ _ _ _ _ (response_frame_nonempty args) E).
Qed.

Lemma _send_command_consumed_witness :
  exists k,
    (forall i, i < k ->
       ~ lit "~!CalcStop`"
         `suffix_of` (lit "~^1" ++ concat (take i [lit "~!CalcSt"; lit "op`"; lit "~^1148|"])))
    /\ Forall (fun c => c <> [])
         (take k [lit "~!CalcSt"; lit "op`"; lit "~^1148|"])
    /\ lit "~!CalcStop`"
       `suffix_of` (lit "~^1" ++ concat (take k [lit "~!CalcSt"; lit "op`"; lit "~^1148|"]))
    /\ [lit "~^1148|"] = drop k [lit "~!CalcSt"; lit "op`"; lit "~^1148|"].
Proof.
  exact (_send_command_consumed
           {| written := [];
              incoming := [lit "~^1"; lit "~!CalcSt"; lit "op`"; lit "~^1148|"] |}
           [lit "CalcStop"]
           {| written := lit "~#CalcStop`"; incoming := [lit "~^1148|"] |}
           (Return ()) eq_refl).
Defined.

(** ** An acknowledgement in the stream *)

Section AcknowledgementRead.
Context `{PyNum}.

(** X16.  The read loop does not survive the acknowledgement of a command.  When
    the frame [~!name|value`] reaches [_read], the character after [!] is
    taken for the marker count; unless it converts to an integer the
    conversion raises, or the index if nothing follows [!], the loop logs
    the buffer, empties it and is left, and the frames after the
    acknowledgement in the same read are never decoded. *)
Theorem acknowledgement_ends_read self args garbage rest chunks :
  STX ∉ garbage -> ETX ∉ garbage ->
  ETX ∉ join DELIM args -> LF ∉ join DELIM args ->
  (forall c, head (join DELIM args) = Some c -> py_int [c] = None) ->
  _read self ((garbage ++ response_frame args ++ rest) :: chunks)
  = ([LogProcessingError
        (if decide (join DELIM args = []) then IndexError else ValueError)
        (garbage ++ response_frame args ++ rest)],
     ([], Broke)).
Proof.
  intros Hg1 Hg2 He Hl Hc. unfold _read. cbn [read_loop app].
  unfold process_buffer.
  assert (payloads (garbage ++ response_frame args ++ rest)
          = (RESPONSE :: join DELIM args) :: payloads rest) as ->.
  { rewrite payloads_run, run_app, run_no_stx by done. cbn [fst snd app].
    rewrite <- payloads_run. unfold response_frame.
    replace (([STX] ++ [RESPONSE] ++ join DELIM args ++ [ETX]) ++ rest)
      with (STX :: (RESPONSE :: join DELIM args) ++ ETX :: rest)
      by (by simpl; rewrite <- app_assoc).
    apply payloads_frame; [done | |].
    - intros [?|?]%elem_of_cons; done.
    - intros [?|?]%elem_of_cons; done. }
  cbn [process_candidates]. unfold process_raw_pose, char_at.
  destruct (join DELIM args) as [|c tail] eqn:Ej.
  - by rewrite decide_True.
  - rewrite decide_False by done. cbn [lookup list_lookup or_raise mbind].
    simpl. by rewrite (Hc c eq_refl).
Qed.

End AcknowledgementRead.

Lemma acknowledgement_ends_read_witness :
  _read (__init__ (H := Exact.real) ∅ true true)
    [lit "~!CalcStop`~^1148|182.39|-175.91|+98.74|+7.10`"; lit "~^1"]
  = ([LogProcessingError ValueError
        (lit "~!CalcStop`~^1148|182.39|-175.91|+98.74|+7.10`")],
     ([], Broke)).
Proof.
  apply (acknowledgement_ends_read (H := Exact.real)
           (__init__ (H := Exact.real) ∅ true true) [lit "CalcStop"] []
           (lit "~^1148|182.39|-175.91|+98.74|+7.10`") [lit "~^1"]).
  - apply not_elem_of_nil.
  - apply not_elem_of_nil.
  - absent.
  - absent.
  - by intros c [= <-].
Defined.

(** ** The life cycle of the driver *)

Section LifecycleExtras.
Context `{PyNum}.

(** The loop of a command raises the exception of the command only. *)
Lemma await_response_exn command_str expected incoming : forall actual e,
  (await_response command_str expected actual incoming).2 = Raise e ->
  exists actual', e = CommandError command_str actual' expected.
Proof.
  induction incoming as [|c l IH]; intros actual e; simpl.
  - case_decide; [done|]. intros [= <-]. by eexists.
  - case_decide; [done|]. case_decide; [|apply IH].
    intros [= <-]. by eexists.
Qed.

(** A command changes the port and nothing else. *)
Lemma send_keeps p args :
  threads (send p args).1 = threads p
  /\ _thread (driver (send p args).1) = _thread (driver p)
  /\ _stopped (driver (send p args).1) = _stopped (driver p)
  /\ is_connected (driver (send p args).1) = is_connected (driver p)
  /\ ((send p args).2 = Raise AssertionError ->
      connection (driver p) = None /\ (send p args).1 = p)
  /\ (is_connected (driver p) = true ->
      port_output (send p args).1 = port_output p ++ command_frame args).
Proof.
  unfold send, is_connected, port_output.
  destruct (connection (driver p)) as [conn|] eqn:Ec.
  - rewrite _send_command_await. simpl.
    split; [done|]. split; [done|]. split; [done|]. split; [done|].
    split; [|done].
    intros [actual' [=]]%await_response_exn.
  - simpl. rewrite Ec. by repeat split.
Qed.

(** One call keeps [_thread] at [None] and the stop flag unset, and joins
    no thread. *)
Lemma invoke_idle p c :
  _thread (driver p) = None -> _stopped (driver p) = false ->
  _thread (driver (invoke p c).1) = None
  /\ _stopped (driver (invoke p c).1) = false
  /\ threads (invoke p c).1
     = (if match (c, (invoke p c).2) with
           | (StartStreaming, Return _) => true
           | _ => false
           end
        then [ReadThread] else []) ++ threads p.
Proof.
  intros Ht Hs. destruct c as [port| | | |name value]; cbn [invoke].
  - unfold connect. by destruct (is_connected (driver p)).
  - unfold disconnect. by destruct (is_connected (driver p)).
  - unfold start_streaming, is_streaming. rewrite Ht.
    destruct (is_connected (driver p)); cbn [andb negb]; [|done].
    destruct (send_keeps p [lit "CalcStart"]) as (H1 & H2 & H3 & _).
    destruct (send p [lit "CalcStart"]) as [p' [[]|e]]; cbn [fst snd] in *.
    + cbn. split; [done|]. split; congruence.
    + cbn. repeat split; congruence.
  - unfold stop_streaming, is_streaming. rewrite Ht.
    destruct (is_connected (driver p)); cbn [andb negb]; [|done].
    destruct (send_keeps p [lit "CalcStop"]) as (H1 & H2 & H3 & _).
    rewrite H1, H2, H3, Ht, Hs.
    by destruct (send p [lit "CalcStop"]).2.
  - unfold set_parameter, is_streaming. rewrite Ht.
    destruct (is_connected (driver p)); cbn [andb negb]; [|done].
    destruct (send_keeps p [name; value]) as (H1 & H2 & H3 & _).
    rewrite H1, H2, H3, Ht, Hs.
    by destruct (send p [name; value]).2.
Qed.

Lemma session_idle calls : forall p,
  _thread (driver p) = None -> _stopped (driver p) = false ->
  _thread (driver (session p calls).1) = None
  /\ _stopped (driver (session p calls).1) = false
  /\ length (session p calls).2 = length calls
  /\ threads (session p calls).1
     = ((fun _ => ReadThread) <$>
          List.filter
            (fun cr => match cr with
                       | (StartStreaming, Return _) => true
                       | _ => false
                       end)
            (reverse (zip calls (session p calls).2)))
       ++ threads p.
Proof.
  induction calls as [|c calls IH]; intros p Ht Hs; [done|].
  cbn [session].
  destruct (invoke_idle p c Ht Hs) as (Ht' & Hs' & Hth).
  destruct (invoke p c) as [p1 r]. cbn [fst snd] in *.
  destruct (IH p1 Ht' Hs') as (Ht2 & Hs2 & Hlen & Hth2).
  destruct (session p1 calls) as [p2 rs]. cbn [fst snd] in *.
  repeat split; [done | done | by simpl; rewrite Hlen |].
  rewrite Hth2, Hth. cbn [zip zip_with]. rewrite reverse_cons.
  rewrite List.filter_app, fmap_app, <- app_assoc. f_equal.
  cbn [List.filter]. by destruct c, r.
Qed.

Lemma threads_reverse {A} (started : A -> bool) (l : list A) :
  (fun _ => ReadThread) <$> List.filter started (reverse l)
  = (fun _ => ReadThread) <$> List.filter started l.
Proof.
  induction l as [|x l IH]; [done|].
  rewrite reverse_cons, List.filter_app, fmap_app, IH. simpl.
  destruct (started x); simpl; [|by rewrite app_nil_r].
  clear IH. induction (List.filter started l) as [|y l' IH']; [done|].
  rewrite fmap_cons. simpl. f_equal. exact IH'.
Qed.

(** X17.  No session of calls of [connect], [disconnect], [start_streaming],
    [stop_streaming] and [set_parameter] on a fresh driver ever records the
    read thread, sets the stop flag or joins a thread: [is_streaming]
    stays false, and the threads that were started and not joined are, at
    the end, one for every [start_streaming] that returned, whatever
    [stop_streaming] and [disconnect] calls came after it.  Whether such a
    thread still runs is not said: its loop ends by itself when the port is
    gone or a frame raises. *)
Theorem session_never_stops marker_map callback_global callback_local calls :
  let p0 := {| driver := __init__ marker_map callback_global callback_local;
               threads := [] |} in
  is_streaming (driver (session p0 calls).1) = false
  /\ _stopped (driver (session p0 calls).1) = false
  /\ threads (session p0 calls).1
     = (fun _ => ReadThread) <$>
         List.filter
           (fun cr => match cr with
                      | (StartStreaming, Return _) => true
                      | _ => false
                      end)
           (zip calls (session p0 calls).2).
Proof.
  intros p0.
  destruct (session_idle calls p0 eq_refl eq_refl) as (Ht & Hs & _ & Hth).
  unfold is_streaming. rewrite Ht. repeat split; [done|].
  rewrite Hth, app_nil_r. apply threads_reverse.
Qed.

(** X18.  In a session on a fresh driver the assertions of the methods fail on
    the connection alone: [connect] when the port is open, the streaming
    calls and [set_parameter] when it is not, and [disconnect] never; the
    test on [is_streaming] never fails.  A call whose assertion fails
    leaves the driver as it was. *)
Theorem assertions_on_connection marker_map callback_global callback_local
    calls c :
  let p := (session {| driver := __init__ marker_map callback_global
                                   callback_local;
                       threads := [] |} calls).1 in
  ((invoke p c).2 = Raise AssertionError <->
   match c with
   | Connect _ => is_connected (driver p) = true
   | Disconnect => False
   | _ => is_connected (driver p) = false
   end)
  /\ ((invoke p c).2 = Raise AssertionError -> (invoke p c).1 = p).
Proof.
  intros p.
  destruct (session_idle calls
              {| driver := __init__ marker_map callback_global callback_local;
                 threads := [] |} eq_refl eq_refl) as (Ht & _).
  fold p in Ht. clearbody p.
  assert (forall args, is_connected (driver p) = true ->
            (send p args).2 <> Raise AssertionError) as Hsend.
  { intros args Hc Hr.
    destruct (send_keeps p args) as (_ & _ & _ & _ & Ha & _).
    destruct (Ha Hr) as [Hn _]. unfold is_connected in Hc.
    by rewrite Hn in Hc. }
  destruct c as [port| | | |name value]; cbn [invoke].
  - unfold connect.
    destruct (is_connected (driver p)); cbn [negb fst snd]; by split.
  - by split.
  - unfold start_streaming, is_streaming. rewrite Ht.
    destruct (is_connected (driver p)) eqn:Ec; cbn [andb negb fst snd];
      [|by split].
    specialize (Hsend [lit "CalcStart"] eq_refl).
    destruct (send p [lit "CalcStart"]) as [p' [[]|e]]; cbn [fst snd] in *.
    + by split.
    + split; [split; [by intros ?|done] | by intros ?].
  - unfold stop_streaming, is_streaming. rewrite Ht.
    destruct (is_connected (driver p)) eqn:Ec; cbn [andb negb fst snd];
      [|by split].
    specialize (Hsend [lit "CalcStop"] eq_refl).
    split; [split; [by intros ?|done] | by intros ?].
  - unfold set_parameter, is_streaming. rewrite Ht.
    destruct (is_connected (driver p)) eqn:Ec; cbn [andb negb fst snd];
      [|by split].
    specialize (Hsend [name; value] eq_refl).
    split; [split; [by intros ?|done] | by intros ?].
Qed.

(** X19.  [stop_streaming] after a [start_streaming] that returned does not stop
    the stream: it finds [is_streaming] false, so it neither sets the stop
    flag nor joins the read thread, and only sends [CalcStop]. *)
Theorem stop_streaming_keeps_thread p p1 :
  start_streaming p = (p1, Return ()) ->
  stop_streaming p1 = send p1 [lit "CalcStop"]
  /\ threads (stop_streaming p1).1 = ReadThread :: threads p
  /\ _stopped (driver (stop_streaming p1).1) = _stopped (driver p)
  /\ port_output (stop_streaming p1).1
     = port_output p ++ command_frame [lit "CalcStart"]
         ++ command_frame [lit "CalcStop"].
Proof.
  intros Hstart.
  destruct (start_streaming_thread p p1 Hstart) as (Hth & Hst & Hc).
  assert (_stopped (driver p1) = _stopped (driver p)
          /\ port_output p1 = port_output p ++ command_frame [lit "CalcStart"])
    as [Hs Hout].
  { revert Hstart. unfold start_streaming.
    destruct (is_connected (driver p)) eqn:Ec; cbn [andb]; [|done].
    destruct (negb (is_streaming (driver p))); [|done].
    destruct (send_keeps p [lit "CalcStart"]) as (_ & _ & H3 & _ & _ & H6).
    specialize (H6 Ec).
    destruct (send p [lit "CalcStart"]) as [p' [[]|e]]; [|done].
    intros [= <-]. cbn [fst snd] in *. split; [exact H3 | exact H6]. }
  assert (stop_streaming p1 = send p1 [lit "CalcStop"]) as ->.
  { unfold stop_streaming. by rewrite Hc, Hst. }
  destruct (send_keeps p1 [lit "CalcStop"]) as (H1 & _ & H3 & _ & _ & H6).
  rewrite H1, H3, (H6 Hc), Hth, Hs, Hout, <- app_assoc. done.
Qed.

(** X20.  A [start_streaming] that fails starts no thread.  Either its assertion
    failed and nothing happened, or [CalcStart] was written and not
    acknowledged: then the exception is that of the command. *)
Theorem start_streaming_failure p p' e :
  start_streaming p = (p', Raise e) ->
  threads p' = threads p
  /\ _thread (driver p') = _thread (driver p)
  /\ ((e = AssertionError /\ p' = p)
      \/ (is_connected (driver p) = true
          /\ (exists actual,
                e = CommandError (command_frame [lit "CalcStart"]) actual
                      (response_frame [lit "CalcStart"]))
          /\ port_output p'
             = port_output p ++ command_frame [lit "CalcStart"])).
Proof.
  unfold start_streaming.
  destruct (is_connected (driver p)) eqn:Ec; cbn [andb];
    [|intros [= <- <-]; repeat split; by left].
  destruct (negb (is_streaming (driver p)));
    [|intros [= <- <-]; repeat split; by left].
  destruct (send_keeps p [lit "CalcStart"]) as (H1 & H2 & _ & _ & _ & H6).
  specialize (H6 Ec).
  assert (forall e, (send p [lit "CalcStart"]).2 = Raise e ->
            exists actual,
              e = CommandError (command_frame [lit "CalcStart"]) actual
                    (response_frame [lit "CalcStart"])) as Hexn.
  { intros e0. unfold send. unfold is_connected in Ec.
    destruct (connection (driver p)) as [conn|]; [|done].
    rewrite _send_command_await. simpl. apply await_response_exn. }
  destruct (send p [lit "CalcStart"]) as [p1 [[]|e1]]; [done|].
  intros [= <- <-]. cbn [fst snd] in *. repeat split; [done | done |].
  right. repeat split; [by apply Hexn | done].
Qed.

End LifecycleExtras.

Lemma stop_streaming_keeps_thread_witness :
  exists p1,
    start_streaming
      {| driver :=
           set_connection (__init__ (H := Exact.real) ∅ true true)
             (Some {| written := [];
                      incoming := [lit "~!CalcStart`"; lit "~!CalcStop`"] |});
         threads := [] |}
    = (p1, Return ())
    /\ stop_streaming p1 = send p1 [lit "CalcStop"]
    /\ threads (stop_streaming p1).1 = [ReadThread]
    /\ _stopped (driver (stop_streaming p1).1) = false
    /\ (stop_streaming p1).2 = Return ()
    /\ port_output (stop_streaming p1).1 = lit "~#CalcStart`~#CalcStop`".
Proof.
  eexists. split; [reflexivity|].
  destruct (stop_streaming_keeps_thread (H := Exact.real)
              {| driver :=
                   set_connection (__init__ (H := Exact.real) ∅ true true)
                     (Some {| written := [];
                              incoming := [lit "~!CalcStart`";
                                           lit "~!CalcStop`"] |});
                 threads := [] |} _ eq_refl)
    as (H1 & H2 & H3 & H4).
  split; [exact H1|]. split; [exact H2|]. split; [exact H3|].
  split; [reflexivity | exact H4].
Defined.

Lemma start_streaming_failure_witness :
  exists p' e,
    start_streaming
      {| driver :=
           set_connection (__init__ (H := Exact.real) ∅ true true)
             (Some {| written := []; incoming := [lit "~!Calc"] |});
         threads := [ReadThread] |}
    = (p', Raise e)
    /\ threads p' = [ReadThread]
    /\ port_output p' = lit "~#CalcStart`".
Proof.
  do 2 eexists. split; [reflexivity|].
  destruct (start_streaming_failure (H := Exact.real)
              {| driver :=
                   set_connection (__init__ (H := Exact.real) ∅ true true)
                     (Some {| written := []; incoming := [lit "~!Calc"] |});
                 threads := [ReadThread] |} _ _ eq_refl)
    as (H1 & _ & [[[=] _]|(_ & _ & H3)]).
  split; [exact H1 | exact H3].
Defined.
